(** * The kanban state manager: board model, settings compiler, pane state
      machine, undo buffer and inline priority field.

    A shallow embedding of [src/StateManager.ts] and of the inline-field
    helpers of [src/components/SidePane/DetailContent.tsx].  The class
    [StateManager] becomes the record [Manager]; its methods become
    functions over that record.  Calls that leave the class (receivers,
    setting listeners, views, the Format) are recorded in the [log] field,
    so that what a method does at its boundary can be stated. *)

From stdpp Require Import base option list strings gmap.

Open Scope string_scope.
Open Scope list_scope.

(** ** JavaScript values of a settings bag

    A property that is absent from an object reads as [undefined]; in the
    model that is [None] from a map lookup.  Arrays carry the identity of
    the array object, since [!==] compares arrays by identity.  The element
    type of the list-valued settings is declared outside this file's
    sources; elements are taken as strings. *)

Inductive JsVal : Type :=
| JNull
| JBool (b : bool)
| JStr (s : string)
| JArr (ref : nat) (items : list string).

#[global] Instance JsVal_eq_dec : EqDecision JsVal.
Proof. solve_decision. Defined.

(** ToBoolean. *)
Definition truthy (v : JsVal) : bool :=
  match v with
  | JNull => false
  | JBool b => b
  | JStr s => negb (bool_decide (s = ""))
  | JArr _ _ => true
  end.

(** [a || b] and [a ?? b]. *)
Definition js_or (a b : JsVal) : JsVal := if truthy a then a else b.

Definition js_nullish (a b : JsVal) : JsVal :=
  match a with
  | JNull => b
  | _ => a
  end.

(** ToString, as used by template strings, [+] with a string and [join]. *)
Definition js_to_string (v : JsVal) : string :=
  match v with
  | JNull => "null"
  | JBool true => "true"
  | JBool false => "false"
  | JStr s => s
  | JArr _ l => String.concat "," l
  end.

(** [a !== b] on values: primitives by value, arrays by identity. *)
Definition strict_ne (a b : JsVal) : bool :=
  match a, b with
  | JNull, JNull => false
  | JBool x, JBool y => negb (bool_decide (x = y))
  | JStr x, JStr y => negb (bool_decide (x = y))
  | JArr r _, JArr r' _ => negb (bool_decide (r = r'))
  | _, _ => true
  end.

(** [o[key] !== o'[key]], where an absent property is [undefined]. *)
Definition prop_strict_ne (a b : option JsVal) : bool :=
  match a, b with
  | None, None => false
  | Some x, Some y => strict_ne x y
  | _, _ => true
  end.

(** The elements of a list-valued setting ([...v] on an array). *)
Definition spread (v : JsVal) : list string :=
  match v with
  | JArr _ l => l
  | _ => []
  end.

(** [Array.from(new Set(l))]: first occurrences, in insertion order. *)
Fixpoint set_from (seen l : list string) : list string :=
  match l with
  | [] => []
  | x :: l' =>
      if bool_decide (x ∈ seen) then set_from seen l'
      else x :: set_from (x :: seen) l'
  end.

(** ** The board *)

Record ErrorEntry : Type := mkErrorEntry {
  description : string;
  stack : string
}.

(** What a [catch (e)] clause receives: [e.toString()] and [e.stack]. *)
Record Exn : Type := mkExn {
  exn_toString : string;
  exn_stack : string
}.

Record ItemData : Type := mkItemData {
  titleRaw : string;
  title : string;
  titleSearch : string;
  checked : bool;
  checkChar : string;
  forceEditMode : bool
}.

Record Item : Type := mkItem {
  item_id : string;
  item_data : ItemData
}.

Record LaneData : Type := mkLaneData {
  lane_title : string;
  shouldMarkItemsComplete : bool
}.

Record Lane : Type := mkLane {
  lane_id : string;
  lane_children : list Item;
  lane_data : LaneData
}.

(** The settings object of a board.  [s_ref] is the identity of the object:
    [oldSettings !== newSettings] compares identities. *)
Record Settings : Type := mkSettings {
  s_ref : nat;
  s_map : gmap string JsVal
}.

Record BoardData : Type := mkBoardData {
  archive : list Item;
  done : list Item;
  delegated : list Item;
  recurring : list Item;
  proposals : list Item;
  waiting : list Item;
  settings : Settings;
  frontmatter : gmap string JsVal;
  isSearching : bool;
  errors : list ErrorEntry
}.

Record Board : Type := mkBoard {
  board_id : string;
  children : list Lane;
  data : BoardData
}.

#[global] Instance ErrorEntry_eq_dec : EqDecision ErrorEntry.
Proof. solve_decision. Defined.
#[global] Instance ItemData_eq_dec : EqDecision ItemData.
Proof. solve_decision. Defined.
#[global] Instance Item_eq_dec : EqDecision Item.
Proof. solve_decision. Defined.

(** The six virtual lists. *)
Inductive ListName : Type :=
| LArchive | LDone | LDelegated | LRecurring | LProposals | LWaiting.


(** *** Copy-on-write updates ([immutability-helper] and object spread) *)


Definition set_data (d : BoardData) (b : Board) : Board :=
  mkBoard (board_id b) (children b) d.

Definition set_settings (s : Settings) (d : BoardData) : BoardData :=
  mkBoardData (archive d) (done d) (delegated d) (recurring d) (proposals d)
    (waiting d) s (frontmatter d) (isSearching d) (errors d).

Definition set_errors (es : list ErrorEntry) (d : BoardData) : BoardData :=
  mkBoardData (archive d) (done d) (delegated d) (recurring d) (proposals d)
    (waiting d) (settings d) (frontmatter d) (isSearching d) es.



(** [{ $splice: [[i, 0, x]] }]: [Array.prototype.splice] clamps a start
    beyond the end to the length. *)
Definition splice_in {A} (i : nat) (x : A) (l : list A) : list A :=
  take i l ++ x :: drop i l.

(** [update(b, { data: { errors: { $push: [{ description: e.toString(),
    stack: e.stack }] } } })]. *)
Definition push_error (e : Exn) (b : Board) : Board :=
  set_data
    (set_errors (errors (data b) ++ [mkErrorEntry (exn_toString e) (exn_stack e)])
       (data b))
    b.

(** ** Collaborators outside the class

    The Format ([parser]), the helper modules and the host are not part of
    the class.  Their functions and constants are the fields of an
    environment; a call that can raise returns a [Result]. *)

Inductive Result (A : Type) : Type :=
| Threw (e : Exn)
| Ok (a : A).

Arguments Threw {A} e.
Arguments Ok {A} a.

Record Env : Type := mkEnv {
  (* parsers/common *)
  frontmatterKey : string;
  shouldRefreshBoard : Settings -> Settings -> bool;
  (* components/helpers, settingHelpers *)
  getDefaultDateFormat : string;
  getDefaultTimeFormat : string;
  defaultDateTrigger : string;
  defaultTimeTrigger : string;
  defaultMetadataPosition : string;
  (* parsers/helpers/inlineMetadata *)
  getTaskStatusDone : string;
  (* the Format: this.parser *)
  boardToMd : Board -> Result string;
  reparseBoard : Board -> gmap string JsVal -> Result Board;
  updateItemContent : Item -> string -> Item;
  (* moment().format(fmt), at the time of the call *)
  momentFormat : JsVal -> string
}.

(** ** The state manager *)

(** A view of the document; [view_data] is its cached document text. *)
Record View : Type := mkView {
  view_id : nat;
  view_data : string
}.

(** Calls that cross the boundary of the class.  Receivers, listeners and
    views are callbacks of the host: a call to one is recorded and is taken
    to return.  The calls to the Format that can raise ([boardToMd],
    [reparseBoard]) are functions of the environment. *)
Inductive Event : Type :=
| EvReceive (receiver : nat) (b : Board)
| EvSetting (key : string) (listener : nat)
| EvInitHeaderButtons (view : nat)
| EvValidatePreviewCache (view : nat) (b : Board)
| EvBoardToMd (b : Board)
| EvRequestSaveToDisk (view : nat) (text : string)
| EvReparseBoard
| EvConsoleError (e : Exn).

Inductive Location : Type :=
| LaneLoc (laneIndex itemIndex : nat)
| VirtualLoc (listName : ListName) (itemIndex : nat).

(** The fields of the class, for a manager whose first board is in place
    ([state] and [state.data.settings] are objects, as their declared types
    say).  [globalSettings] is what [getGlobalSettings()] returns. *)
Record Manager : Type := mkManager {
  state : Board;
  compiledSettings : gmap string JsVal;
  globalSettings : gmap string JsVal;
  viewSet : list View;
  stateReceivers : list nat;
  settingsNotifiers : list (string * list nat);
  selectedItemId : option string;
  isArchiveOpen : bool;
  isDoneOpen : bool;
  isDelegatedOpen : bool;
  isRecurringOpen : bool;
  isProposalsOpen : bool;
  isWaitingOpen : bool;
  previousPaneMode : option ListName;
  lastDeletedBuffer : option (Item * Location);
  log : list Event
}.

(** The field initialisers of the class. *)
Definition new_manager (b : Board) (global : gmap string JsVal)
    (views : list View) : Manager :=
  mkManager b ∅ global views [] [] None false false false false false false
    None None [].

Definition set_state (b : Board) (m : Manager) : Manager :=
  mkManager b (compiledSettings m) (globalSettings m) (viewSet m)
    (stateReceivers m) (settingsNotifiers m) (selectedItemId m)
    (isArchiveOpen m) (isDoneOpen m) (isDelegatedOpen m) (isRecurringOpen m)
    (isProposalsOpen m) (isWaitingOpen m) (previousPaneMode m)
    (lastDeletedBuffer m) (log m).

Definition set_compiledSettings (c : gmap string JsVal) (m : Manager) : Manager :=
  mkManager (state m) c (globalSettings m) (viewSet m)
    (stateReceivers m) (settingsNotifiers m) (selectedItemId m)
    (isArchiveOpen m) (isDoneOpen m) (isDelegatedOpen m) (isRecurringOpen m)
    (isProposalsOpen m) (isWaitingOpen m) (previousPaneMode m)
    (lastDeletedBuffer m) (log m).

Definition set_viewSet (vs : list View) (m : Manager) : Manager :=
  mkManager (state m) (compiledSettings m) (globalSettings m) vs
    (stateReceivers m) (settingsNotifiers m) (selectedItemId m)
    (isArchiveOpen m) (isDoneOpen m) (isDelegatedOpen m) (isRecurringOpen m)
    (isProposalsOpen m) (isWaitingOpen m) (previousPaneMode m)
    (lastDeletedBuffer m) (log m).

Definition set_selectedItemId (i : option string) (m : Manager) : Manager :=
  mkManager (state m) (compiledSettings m) (globalSettings m) (viewSet m)
    (stateReceivers m) (settingsNotifiers m) i
    (isArchiveOpen m) (isDoneOpen m) (isDelegatedOpen m) (isRecurringOpen m)
    (isProposalsOpen m) (isWaitingOpen m) (previousPaneMode m)
    (lastDeletedBuffer m) (log m).

Definition set_isArchiveOpen (b : bool) (m : Manager) : Manager :=
  mkManager (state m) (compiledSettings m) (globalSettings m) (viewSet m)
    (stateReceivers m) (settingsNotifiers m) (selectedItemId m)
    b (isDoneOpen m) (isDelegatedOpen m) (isRecurringOpen m)
    (isProposalsOpen m) (isWaitingOpen m) (previousPaneMode m)
    (lastDeletedBuffer m) (log m).

Definition set_isDoneOpen (b : bool) (m : Manager) : Manager :=
  mkManager (state m) (compiledSettings m) (globalSettings m) (viewSet m)
    (stateReceivers m) (settingsNotifiers m) (selectedItemId m)
    (isArchiveOpen m) b (isDelegatedOpen m) (isRecurringOpen m)
    (isProposalsOpen m) (isWaitingOpen m) (previousPaneMode m)
    (lastDeletedBuffer m) (log m).

Definition set_isDelegatedOpen (b : bool) (m : Manager) : Manager :=
  mkManager (state m) (compiledSettings m) (globalSettings m) (viewSet m)
    (stateReceivers m) (settingsNotifiers m) (selectedItemId m)
    (isArchiveOpen m) (isDoneOpen m) b (isRecurringOpen m)
    (isProposalsOpen m) (isWaitingOpen m) (previousPaneMode m)
    (lastDeletedBuffer m) (log m).

Definition set_isRecurringOpen (b : bool) (m : Manager) : Manager :=
  mkManager (state m) (compiledSettings m) (globalSettings m) (viewSet m)
    (stateReceivers m) (settingsNotifiers m) (selectedItemId m)
    (isArchiveOpen m) (isDoneOpen m) (isDelegatedOpen m) b
    (isProposalsOpen m) (isWaitingOpen m) (previousPaneMode m)
    (lastDeletedBuffer m) (log m).

Definition set_isProposalsOpen (b : bool) (m : Manager) : Manager :=
  mkManager (state m) (compiledSettings m) (globalSettings m) (viewSet m)
    (stateReceivers m) (settingsNotifiers m) (selectedItemId m)
    (isArchiveOpen m) (isDoneOpen m) (isDelegatedOpen m) (isRecurringOpen m)
    b (isWaitingOpen m) (previousPaneMode m)
    (lastDeletedBuffer m) (log m).

Definition set_isWaitingOpen (b : bool) (m : Manager) : Manager :=
  mkManager (state m) (compiledSettings m) (globalSettings m) (viewSet m)
    (stateReceivers m) (settingsNotifiers m) (selectedItemId m)
    (isArchiveOpen m) (isDoneOpen m) (isDelegatedOpen m) (isRecurringOpen m)
    (isProposalsOpen m) b (previousPaneMode m)
    (lastDeletedBuffer m) (log m).


Definition set_log (l : list Event) (m : Manager) : Manager :=
  mkManager (state m) (compiledSettings m) (globalSettings m) (viewSet m)
    (stateReceivers m) (settingsNotifiers m) (selectedItemId m)
    (isArchiveOpen m) (isDoneOpen m) (isDelegatedOpen m) (isRecurringOpen m)
    (isProposalsOpen m) (isWaitingOpen m) (previousPaneMode m)
    (lastDeletedBuffer m) l.

Definition record (evs : list Event) (m : Manager) : Manager :=
  set_log (log m ++ evs) m.

(** ** Methods as computations over the manager

    A method body reads and writes the fields and may raise; an exception
    leaves the writes made so far in place. *)

Definition M (A : Type) : Type := Manager -> Result A * Manager.

Definition ret {A} (a : A) : M A := fun m => (Ok a, m).

Definition bind {A B} (c : M A) (k : A -> M B) : M B :=
  fun m =>
    match c m with
    | (Threw e, m') => (Threw e, m')
    | (Ok a, m') => k a m'
    end.

#[global] Instance M_ret : MRet M := @ret.
#[global] Instance M_bind : MBind M := fun A B k c => bind c k.

Definition get : M Manager := fun m => (Ok m, m).

Definition modify (f : Manager -> Manager) : M unit := fun m => (Ok tt, f m).

Definition emit (evs : list Event) : M unit := modify (record evs).

Definition lift {A} (r : Result A) : M A := fun m => (r, m).

Definition when (b : bool) (c : M unit) : M unit := if b then c else ret tt.

(** ** Settings compiler *)

Definition getGlobalSetting (key : string) (m : Manager) : JsVal :=
  match globalSettings m !! key with
  | Some v => v
  | None => JNull
  end.

(** [suppliedLocalSettings?.[key]] for the optional argument. *)
Definition supplied_prop (supplied : option (gmap string JsVal)) (key : string)
  : option JsVal :=
  supplied ≫= (fun o => o !! key).

Definition getSettingRaw (key : string) (supplied : option (gmap string JsVal))
    (m : Manager) : JsVal :=
  match supplied_prop supplied key with
  | Some v => v
  | None =>
      match s_map (settings (data (state m))) !! key with
      | Some v => v
      | None => getGlobalSetting key m
      end
  end.


(** An object literal: a later property of the same name replaces an
    earlier one. *)
Definition object_literal (props : list (string * JsVal)) : gmap string JsVal :=
  foldl (fun o kv => <[kv.1 := kv.2]> o) ∅ props.

(** Arrays made by the compiler are new objects.  Nothing compares a
    compiled value by identity; the model gives them this identity. *)
Definition fresh_ref : nat := 0.

Definition compiled_object (E : Env) (supplied : option (gmap string JsVal))
    (m : Manager) : gmap string JsVal :=
  let raw key := getSettingRaw key supplied m in
  let globalKeys := js_or (getGlobalSetting "metadata-keys" m) (JArr fresh_ref []) in
  let localKeys := js_or (raw "metadata-keys") (JArr fresh_ref []) in
  let metadataKeys :=
    JArr fresh_ref (set_from [] (spread globalKeys ++ spread localKeys)) in
  let dateFormat := js_or (raw "date-format") (JStr (getDefaultDateFormat E)) in
  let dateDisplayFormat := js_or (raw "date-display-format") dateFormat in
  let timeFormat := js_or (raw "time-format") (JStr (getDefaultTimeFormat E)) in
  let archiveDateFormat :=
    js_or (raw "archive-date-format")
      (JStr (js_to_string dateFormat ++ " " ++ js_to_string timeFormat)) in
  object_literal [
    (frontmatterKey E, js_or (raw (frontmatterKey E)) (JStr "board"));
    ("date-format", dateFormat);
    ("date-display-format", dateDisplayFormat);
    ("date-time-display-format",
       JStr (js_to_string dateDisplayFormat ++ " " ++ js_to_string timeFormat));
    ("date-trigger", js_or (raw "date-trigger") (JStr (defaultDateTrigger E)));
    ("inline-metadata-position",
       js_or (raw "inline-metadata-position") (JStr (defaultMetadataPosition E)));
    ("time-format", timeFormat);
    ("time-trigger", js_or (raw "time-trigger") (JStr (defaultTimeTrigger E)));
    ("link-date-to-daily-note", raw "link-date-to-daily-note");
    ("move-dates", raw "move-dates");
    ("move-tags", raw "move-tags");
    ("move-task-metadata", raw "move-task-metadata");
    ("metadata-keys", metadataKeys);
    ("archive-date-separator",
       js_or (getSettingRaw "archive-date-separator" None m) (JStr ""));
    ("archive-date-format", archiveDateFormat);
    ("show-add-list", js_nullish (raw "show-add-list") (JBool true));
    ("show-archive-all", js_nullish (raw "show-archive-all") (JBool true));
    ("show-view-as-markdown", js_nullish (raw "show-view-as-markdown") (JBool true));
    ("show-board-settings", js_nullish (raw "show-board-settings") (JBool true));
    ("show-search", js_nullish (raw "show-search") (JBool true));
    ("show-set-view", js_nullish (raw "show-set-view") (JBool true));
    ("tag-colors", js_nullish (raw "tag-colors") (JArr fresh_ref []));
    ("tag-sort", js_nullish (raw "tag-sort") (JArr fresh_ref []));
    ("date-colors", js_nullish (raw "date-colors") (JArr fresh_ref []));
    ("tag-action", js_nullish (raw "tag-action") (JStr "obsidian"))
  ].

Definition compileSettings (E : Env) (supplied : option (gmap string JsVal))
  : M unit :=
  modify (fun m => set_compiledSettings (compiled_object E supplied m) m).

(** ** Saving and state transitions *)

Definition set_view_data (text : string) (v : View) : View :=
  mkView (view_id v) text.

(** [this.stateReceivers.forEach((receiver) => receiver(b))]. *)
Definition notify_receivers (b : Board) : M unit :=
  m ← get; emit (map (fun r => EvReceive r b) (stateReceivers m)).

Definition saveToDisk (E : Env) : M unit :=
  m ← get;
  if bool_decide (0 < length (errors (data (state m)))) then ret tt
  else
    match viewSet m with
    | [] => ret tt
    | view :: _ =>
        emit [EvBoardToMd (state m)];;
        fileStr ← lift (boardToMd E (state m));
        emit [EvRequestSaveToDisk (view_id view) fileStr];;
        modify (fun m' => set_viewSet (map (set_view_data fileStr) (viewSet m')) m')
    end.

Definition softRefresh : M unit :=
  m ← get; notify_receivers (state m).

(** The argument of [setState]: a board, or a function of the board. *)
Inductive StateArg : Type :=
| SBoard (b : Board)
| STransform (f : Board -> Result Board).

(** The listeners [setState] invokes: those of every key whose property
    differs between the old and the new settings object of the board. *)
Definition changed_listeners (old new : Settings)
    (notifiers : list (string * list nat)) : list Event :=
  flat_map
    (fun kn =>
       if prop_strict_ne (s_map old !! kn.1) (s_map new !! kn.1)
       then map (EvSetting kn.1) kn.2
       else [])
    notifiers.

Definition all_listeners (notifiers : list (string * list nat)) : list Event :=
  flat_map (fun kn => map (EvSetting kn.1) kn.2) notifiers.

(** [typeof state === 'function' ? state(this.state) : state]. *)
Definition candidate (arg : StateArg) : M Board :=
  m ← get;
  match arg with
  | STransform f => lift (f (state m))
  | SBoard b => ret b
  end.

(** The two branches on [shouldRefreshBoard]: after a change of settings
    that affects parsing only the new settings are kept and the board is
    parsed again; otherwise the candidate becomes the state. *)
Definition install (E : Env) (oldSettings : Settings) (newState : Board)
  : M unit :=
  let newSettings := settings (data newState) in
  if shouldRefreshBoard E oldSettings newSettings then
    m0 ← get;
    modify (set_state (set_data (set_settings newSettings (data (state m0)))
                         (state m0)));;
    compileSettings E None;;
    emit [EvReparseBoard];;
    m1 ← get;
    b ← lift (reparseBoard E (state m1) (compiledSettings m1));
    modify (set_state b)
  else
    modify (set_state newState);;
    compileSettings E None.

Definition view_events (newState : Board) (views : list View) : list Event :=
  flat_map
    (fun view => [EvInitHeaderButtons (view_id view);
                  EvValidatePreviewCache (view_id view) newState])
    views.

(** What follows the two branches: views, saving, receivers, listeners. *)
Definition announce (E : Env) (oldSettings : Settings) (newState : Board)
    (shouldSave : bool) : M unit :=
  let newSettings := settings (data newState) in
  m2 ← get;
  emit (view_events newState (viewSet m2));;
  when shouldSave (saveToDisk E);;
  m3 ← get;
  notify_receivers (state m3);;
  when (negb (bool_decide (s_ref oldSettings = s_ref newSettings)))
    (emit (changed_listeners oldSettings newSettings (settingsNotifiers m3))).

(** The [try] block of [setState]. *)
Definition setState_try (E : Env) (arg : StateArg) (shouldSave : bool) : M unit :=
  m0 ← get;
  let oldSettings := settings (data (state m0)) in
  newState ← candidate arg;
  install E oldSettings newState;;
  announce E oldSettings newState shouldSave.

(** [try { body } catch (e) { console.error(e); this.setError(e); }].
    A result of [None] stands for a run that does not return. *)
Definition catch_with (setError : Exn -> Manager -> option Manager)
    (body : M unit) (m : Manager) : option Manager :=
  match body m with
  | (Ok _, m') => Some m'
  | (Threw e, m') => setError e (record [EvConsoleError e] m')
  end.

(** [setError] calls [setState], whose handler calls [setError]: the fuel
    bounds the number of nested error transitions. *)
Fixpoint setError (E : Env) (fuel : nat) (e : Exn) (m : Manager)
  : option Manager :=
  match fuel with
  | 0 => None
  | S fuel' =>
      catch_with (setError E fuel')
        (setState_try E (SBoard (push_error e (state m))) false) m
  end.

Definition setState (E : Env) (fuel : nat) (arg : StateArg) (shouldSave : bool)
    (m : Manager) : option Manager :=
  catch_with (setError E fuel) (setState_try E arg shouldSave) m.

Arguments setError : simpl never.

Definition forceRefresh_try (E : Env) : M unit :=
  compileSettings E None;;
  emit [EvReparseBoard];;
  m1 ← get;
  b ← lift (reparseBoard E (state m1) (compiledSettings m1));
  modify (set_state b);;
  notify_receivers b;;
  m2 ← get;
  emit (all_listeners (settingsNotifiers m2));;
  emit (map (fun view => EvInitHeaderButtons (view_id view)) (viewSet m2)).

Definition forceRefresh (E : Env) (fuel : nat) (m : Manager) : option Manager :=
  catch_with (setError E fuel) (forceRefresh_try E) m.

(** ** Archiving completed cards *)








(** ** Selection and panes *)

(** [this.stateReceivers.forEach((receiver) => receiver({ ...this.state }))]. *)
Definition renotify (m : Manager) : Manager :=
  record (map (fun r => EvReceive r (state m)) (stateReceivers m)) m.

Definition selectItem (itemId : option string) (m : Manager) : Manager :=
  let m1 := set_selectedItemId itemId m in
  let m2 := if bool_decide (itemId <> None) then set_isArchiveOpen false m1 else m1 in
  renotify m2.

Definition toggleArchive (m : Manager) : Manager :=
  let m1 := set_isArchiveOpen (negb (isArchiveOpen m)) m in
  let m2 :=
    if isArchiveOpen m1
    then set_isDelegatedOpen false (set_isDoneOpen false (set_selectedItemId None m1))
    else m1 in
  renotify m2.

Definition openArchive (m : Manager) : Manager :=
  renotify (set_selectedItemId None (set_isArchiveOpen true m)).

Definition closeArchive (m : Manager) : Manager :=
  renotify (set_isArchiveOpen false m).

Definition toggleDone (m : Manager) : Manager :=
  let m1 := set_isDoneOpen (negb (isDoneOpen m)) m in
  let m2 :=
    if isDoneOpen m1
    then set_isDelegatedOpen false (set_isArchiveOpen false (set_selectedItemId None m1))
    else m1 in
  renotify m2.

Definition openDone (m : Manager) : Manager :=
  renotify (set_isArchiveOpen false (set_selectedItemId None (set_isDoneOpen true m))).

Definition closeDone (m : Manager) : Manager :=
  renotify (set_isDoneOpen false m).

Definition toggleDelegated (m : Manager) : Manager :=
  let m1 := set_isDelegatedOpen (negb (isDelegatedOpen m)) m in
  let m2 :=
    if isDelegatedOpen m1
    then set_isDoneOpen false (set_isArchiveOpen false (set_selectedItemId None m1))
    else m1 in
  renotify m2.

Definition openDelegated (m : Manager) : Manager :=
  renotify
    (set_isDoneOpen false (set_isArchiveOpen false
       (set_selectedItemId None (set_isDelegatedOpen true m)))).

Definition closeDelegated (m : Manager) : Manager :=
  renotify (set_isDelegatedOpen false m).

(** The assignments shared by [toggleRecurring] (when it opens) and
    [openRecurring], and likewise for proposals and waiting. *)
Definition only_recurring (m : Manager) : Manager :=
  set_isWaitingOpen false (set_isProposalsOpen false (set_isDelegatedOpen false
    (set_isDoneOpen false (set_isArchiveOpen false (set_selectedItemId None m))))).

Definition only_proposals (m : Manager) : Manager :=
  set_isWaitingOpen false (set_isRecurringOpen false (set_isDelegatedOpen false
    (set_isDoneOpen false (set_isArchiveOpen false (set_selectedItemId None m))))).

Definition only_waiting (m : Manager) : Manager :=
  set_isProposalsOpen false (set_isRecurringOpen false (set_isDelegatedOpen false
    (set_isDoneOpen false (set_isArchiveOpen false (set_selectedItemId None m))))).

Definition toggleRecurring (m : Manager) : Manager :=
  let m1 := set_isRecurringOpen (negb (isRecurringOpen m)) m in
  renotify (if isRecurringOpen m1 then only_recurring m1 else m1).

Definition openRecurring (m : Manager) : Manager :=
  renotify (only_recurring (set_isRecurringOpen true m)).

Definition closeRecurring (m : Manager) : Manager :=
  renotify (set_isRecurringOpen false m).

Definition toggleProposals (m : Manager) : Manager :=
  let m1 := set_isProposalsOpen (negb (isProposalsOpen m)) m in
  renotify (if isProposalsOpen m1 then only_proposals m1 else m1).

Definition openProposals (m : Manager) : Manager :=
  renotify (only_proposals (set_isProposalsOpen true m)).

Definition closeProposals (m : Manager) : Manager :=
  renotify (set_isProposalsOpen false m).

Definition toggleWaiting (m : Manager) : Manager :=
  let m1 := set_isWaitingOpen (negb (isWaitingOpen m)) m in
  renotify (if isWaitingOpen m1 then only_waiting m1 else m1).

Definition openWaiting (m : Manager) : Manager :=
  renotify (only_waiting (set_isWaitingOpen true m)).

Definition closeWaiting (m : Manager) : Manager :=
  renotify (set_isWaitingOpen false m).

(** The selection and pane operations, as a caller can issue them. *)
Inductive PaneOp : Type :=
| SelectItem (itemId : option string)
| ToggleArchive | OpenArchive | CloseArchive
| ToggleDone | OpenDone | CloseDone
| ToggleDelegated | OpenDelegated | CloseDelegated
| ToggleRecurring | OpenRecurring | CloseRecurring
| ToggleProposals | OpenProposals | CloseProposals
| ToggleWaiting | OpenWaiting | CloseWaiting.

Definition pane_step (m : Manager) (op : PaneOp) : Manager :=
  match op with
  | SelectItem i => selectItem i m
  | ToggleArchive => toggleArchive m
  | OpenArchive => openArchive m
  | CloseArchive => closeArchive m
  | ToggleDone => toggleDone m
  | OpenDone => openDone m
  | CloseDone => closeDone m
  | ToggleDelegated => toggleDelegated m
  | OpenDelegated => openDelegated m
  | CloseDelegated => closeDelegated m
  | ToggleRecurring => toggleRecurring m
  | OpenRecurring => openRecurring m
  | CloseRecurring => closeRecurring m
  | ToggleProposals => toggleProposals m
  | OpenProposals => openProposals m
  | CloseProposals => closeProposals m
  | ToggleWaiting => toggleWaiting m
  | OpenWaiting => openWaiting m
  | CloseWaiting => closeWaiting m
  end.

Definition pane_run (ops : list PaneOp) (m : Manager) : Manager :=
  foldl pane_step m ops.

Definition overlay_flags (m : Manager) : list bool :=
  [isArchiveOpen m; isDoneOpen m; isDelegatedOpen m;
   isRecurringOpen m; isProposalsOpen m; isWaitingOpen m].

Definition open_count (flags : list bool) : nat :=
  length (filter (fun b => b = true) flags).

(** ** Undo buffer *)




(** *** Deleting the selected card

    The Delete/Backspace handler of [components/SidePane/DetailContent.tsx]:
    it looks the card up by its id, first in the lanes, then in the virtual
    lists, records it with its position, and removes it in one [setState]. *)








(** ** Inline priority field

    [getPriorityFromTitle] and [updatePriorityInTitle] of
    [components/SidePane/DetailContent.tsx], and the high-priority entry of
    the card menu ([components/Item/ItemMenu.ts]).  A title is a sequence of
    UTF-16 code units. *)

Module InlineField.

Definition code_units (s : string) : list N :=
map Ascii.N_of_ascii (String.list_ascii_of_string s).

Inductive Priority : Type := Standard | High | Low.

Definition priority_name (p : Priority) : string :=
match p with
| Standard => "standard"
| High => "high"
| Low => "low"
end.

(** Case folding of the [i] flag.  The patterns of this file consist of
  ASCII characters, and without the [u] flag no code unit from 128 on
  folds to an ASCII one, so folding the ASCII letters decides every
  comparison with a pattern character. *)
Definition canonicalize (c : N) : N :=
if (97 <=? c)%N && (c <=? 122)%N then (c - 32)%N else c.

(** Matching a literal at the start of [s]; the answer is what follows. *)
Fixpoint match_literal (pat s : list N) : option (list N) :=
match pat with
| [] => Some s
| p :: pat' =>
    match s with
    | [] => None
    | c :: s' =>
        if (canonicalize p =? canonicalize c)%N then match_literal pat' s'
        else None
    end
end.

(** [(a|b|...)\]]: the first alternative after which the closing bracket
  matches. *)
Fixpoint match_alternatives (alts : list Priority) (s : list N)
: option (Priority * list N) :=
match alts with
| [] => None
| p :: alts' =>
    match match_literal (code_units (priority_name p) ++ code_units "]") s with
    | Some rest => Some (p, rest)
    | None => match_alternatives alts' s
    end
end.

(** [/\[priority::(alts)\]/i] at the start of [s]. *)
Definition match_token (alts : list Priority) (s : list N)
: option (Priority * list N) :=
match match_literal (code_units "[priority::") s with
| Some rest => match_alternatives alts rest
| None => None
end.

(** [PRIORITY_REGEX] and the pattern of [getPriorityFromTitle]. *)
Definition PRIORITY_REGEX : list Priority := [Standard; High; Low].
Definition READ_REGEX : list Priority := [High; Low].

(** [s.replace(PRIORITY_REGEX, '')] with the [g] flag: one pass from left to
  right; after a match the scan resumes behind it.  [skip] counts the code
  units of the current match still to be dropped. *)
Fixpoint replace_from (skip : nat) (s : list N) : list N :=
match s with
| [] => []
| c :: s' =>
    match skip with
    | S k => replace_from k s'
    | O =>
        match match_token PRIORITY_REGEX s with
        | Some (_, rest) => replace_from (length s' - length rest) s'
        | None => c :: replace_from 0 s'
        end
    end
end.

Definition replace_priority (s : list N) : list N := replace_from 0 s.

(** The number of matches of [PRIORITY_REGEX] in one pass with the [g]
  flag: the [[priority::...]] tokens of a title. *)
Fixpoint count_from (skip : nat) (s : list N) : nat :=
match s with
| [] => 0
| c :: s' =>
    match skip with
    | S k => count_from k s'
    | O =>
        match match_token PRIORITY_REGEX s with
        | Some (_, rest) => S (count_from (length s' - length rest) s')
        | None => count_from 0 s'
        end
    end
end.

Definition count_tokens (s : list N) : nat := count_from 0 s.

(** White space and line terminators, as [String.prototype.trim] sees them. *)
Definition is_white_space (c : N) : bool :=
bool_decide (c ∈ [9; 10; 11; 12; 13; 32; 160; 5760; 8232; 8233; 8239; 8287;
                  12288; 65279]%N)
|| ((8192 <=? c)%N && (c <=? 8202)%N).

Fixpoint trim_start (s : list N) : list N :=
match s with
| [] => []
| c :: s' => if is_white_space c then trim_start s' else s
end.

Definition trim (s : list N) : list N :=
reverse (trim_start (reverse (trim_start s))).

Fixpoint getPriorityFromTitle (titleRaw : list N) : Priority :=
match match_token READ_REGEX titleRaw with
| Some (p, _) => p
| None =>
    match titleRaw with
    | [] => Standard
    | _ :: rest => getPriorityFromTitle rest
    end
end.

Definition priority_token (p : Priority) : list N :=
code_units " [priority::" ++ code_units (priority_name p) ++ code_units "]".

Definition updatePriorityInTitle (titleRaw : list N) (newPriority : Priority)
: list N :=
let cleaned := trim (replace_priority titleRaw) in
match newPriority with
| Standard => cleaned
| _ => cleaned ++ priority_token newPriority
end.

(** [/\[priority::high\]/i.test(s)]. *)
Fixpoint test_high (s : list N) : bool :=
match match_token [High] s with
| Some _ => true
| None =>
    match s with
    | [] => false
    | _ :: rest => test_high rest
    end
end.

(** The title the menu entry "Set / Remove high priority" writes. *)
Definition menu_high_priority (titleRaw : list N) : list N :=
let hasPriority := test_high titleRaw in
let newTitleRaw := trim (replace_priority titleRaw) in
if negb hasPriority then newTitleRaw ++ priority_token High else newTitleRaw.

(** A match of [PRIORITY_REGEX] somewhere in [s]. *)
Fixpoint has_token (s : list N) : bool :=
match match_token PRIORITY_REGEX s with
| Some _ => true
| None =>
    match s with
    | [] => false
    | _ :: rest => has_token rest
    end
end.

(** No character of [pat] matches a space. *)
Definition no_space (pat : list N) : bool :=
  forallb (fun p => negb (canonicalize p =? 32)%N) pat.

(** The token of [p] without the space in front of it. *)
Definition token_body (p : Priority) : list N :=
  code_units "[priority::" ++ code_units (priority_name p) ++ code_units "]".

(** Setting the priority to high reads back as high and leaves one token
  after one or two applications, whatever the title. *)
Definition priority_settles_for_every_title : Prop :=
forall t : list N,
  getPriorityFromTitle (updatePriorityInTitle t High) = High
  /\ count_tokens (updatePriorityInTitle (updatePriorityInTitle t High) High) = 1.

Arguments match_token : simpl never.

End InlineField.

(** ** Observations used in the statements *)

(** The fields no state transition writes. *)
Definition aux (m : Manager) :=
  (selectedItemId m, overlay_flags m, previousPaneMode m, lastDeletedBuffer m,
   globalSettings m, stateReceivers m, settingsNotifiers m).

(** The listener invocations of a log, in order. *)
Definition setting_events (l : list Event) : list (string * nat) :=
  omap (fun ev => match ev with EvSetting k i => Some (k, i) | _ => None end) l.

(** The boards handed to state receivers, in order. *)
Definition received_boards (l : list Event) : list Board :=
  omap (fun ev => match ev with EvReceive _ b => Some b | _ => None end) l.

(** The texts handed to views for writing, in order. *)
Definition requested_saves (l : list Event) : list string :=
  omap (fun ev => match ev with EvRequestSaveToDisk _ t => Some t | _ => None end) l.

(** The manager after the plain branch of [setState] has accepted [b]. *)
Definition installed (E : Env) (b : Board) (m : Manager) : Manager :=
  set_compiledSettings (compiled_object E None (set_state b m)) (set_state b m).

Definition receive_events (b : Board) (receivers : list nat) : list Event :=
  map (fun r => EvReceive r b) receivers.





(** Mutual exclusion as the overlay flags would have it: at most one flag
    is set, and none while a card is selected. *)
Definition pane_exclusion (m : Manager) : Prop :=
  open_count (overlay_flags m) <= 1
  /\ (1 <= open_count (overlay_flags m) -> selectedItemId m = None).

(** What the operations keep between them. *)
Definition pane_invariant (m : Manager) : Prop :=
  (isArchiveOpen m = true -> selectedItemId m = None)
  /\ open_count [isRecurringOpen m; isProposalsOpen m; isWaitingOpen m] <= 1.

(** [op] sets the flag of its pane on [m]: an [open], or a [toggle] of a
    pane that is closed. *)
Definition opens (op : PaneOp) (m : Manager) : bool :=
  match op with
  | OpenArchive | OpenDone | OpenDelegated
  | OpenRecurring | OpenProposals | OpenWaiting => true
  | ToggleArchive => negb (isArchiveOpen m)
  | ToggleDone => negb (isDoneOpen m)
  | ToggleDelegated => negb (isDelegatedOpen m)
  | ToggleRecurring => negb (isRecurringOpen m)
  | ToggleProposals => negb (isProposalsOpen m)
  | ToggleWaiting => negb (isWaitingOpen m)
  | _ => false
  end.

(** The flags after opening one of the three panes whose operations clear
    every other flag. *)
Definition sole_flag (op : PaneOp) : option (list bool) :=
  match op with
  | OpenRecurring | ToggleRecurring => Some [false; false; false; true; false; false]
  | OpenProposals | ToggleProposals => Some [false; false; false; false; true; false]
  | OpenWaiting | ToggleWaiting => Some [false; false; false; false; false; true]
  | _ => None
  end.



(** *** Settings precedence, in the words of the specification *)







(** The listener invocations of [l'] that come after those of [l]. *)
Definition new_setting_events (l l' : list Event) : list (string * nat) :=
  drop (length (setting_events l)) (setting_events l').

(** [listener] is registered for [key]. *)
Definition registered (key : string) (listener : nat)
    (notifiers : list (string * list nat)) : Prop :=
  exists fns, (key, fns) ∈ notifiers /\ listener ∈ fns.

(** Listeners follow the resolved value: a registered listener of a key is
    invoked by [setState] exactly when the compiled value of the key after
    the call differs from the one before. *)
Definition listeners_follow_resolved_value : Prop :=
  forall (E : Env) (fuel : nat) (arg : StateArg) (shouldSave : bool)
         (m m' : Manager) (key : string) (listener : nat),
    compiledSettings m = compiled_object E None m ->
    setState E fuel arg shouldSave m = Some m' ->
    registered key listener (settingsNotifiers m) ->
    ((key, listener) ∈ new_setting_events (log m) (log m')
     <-> compiledSettings m !! key <> compiledSettings m' !! key).

(** ** A small board and environment for worked examples *)

Module Sample.

(** An environment in which a change of the date format calls for a new
    parse, the Format writes a fixed text and parsing gives back the board
    it is shown. *)
Definition env : Env :=
  mkEnv "kanban-plugin"
    (fun old new =>
       negb (bool_decide (s_map old !! "date-format" = s_map new !! "date-format")))
    "YYYY-MM-DD" "HH:mm" "@" "@@" "body" "x"
    (fun _ => Ok "## Todo")
    (fun b _ => Ok b)
    (fun item content =>
       mkItem (item_id item)
         (mkItemData content content content (checked (item_data item))
            (checkChar (item_data item)) false))
    (fun _ => "2026-01-22").

Definition card (id text : string) : Item :=
  mkItem id (mkItemData text text text false " " false).

Definition cardA : Item := card "a" "Write report".
Definition cardC : Item := card "c" "Pay invoice".

Definition lane (id : string) (markComplete : bool) (cards : list Item) : Lane :=
  mkLane id cards (mkLaneData id markComplete).

Definition board (local : gmap string JsVal) (lanes : list Lane)
    (errs : list ErrorEntry) : Board :=
  mkBoard "Control/Board.md" lanes
    (mkBoardData [] [] [] [] [] [] (mkSettings 1 local) ∅ false errs).

Definition manager (b : Board) (global : gmap string JsVal) : Manager :=
  mkManager b ∅ global [mkView 1 "old text"] [7] [("date-format", [3])]
    None false false false false false false None None [].

Definition boom : Exn := mkExn "Error: boom" "at transform".

(** A board with one open lane and one lane that marks its cards
    complete, and the same board after a failed parse. *)
Definition working : Manager :=
  manager (board ∅ [lane "todo" false [cardC]; lane "done" true []] [])
    {["date-format" := JStr "MM/DD"]}.

Definition broken : Manager :=
  manager (board ∅ [lane "todo" false [cardC]]
             [mkErrorEntry "SyntaxError: bad front matter" "at mdToBoard"])
    ∅.



Definition global_only : Manager :=
  manager (board ∅ [] []) {["date-format" := JStr "MM/DD"]}.

(** [global_only] with its settings compiled, and a candidate board that
    repeats the global date format in a settings object of its own. *)
Definition compiled_global_only : Manager :=
  set_compiledSettings (compiled_object env None global_only) global_only.

Definition repeats_global : Board :=
  mkBoard "Control/Board.md" []
    (mkBoardData [] [] [] [] [] []
       (mkSettings 2 {["date-format" := JStr "MM/DD"]}) ∅ false []).

End Sample.

(** * More of the code

    The rest of [src/StateManager.ts] that can be read without the Format,
    and the handlers of the components that move cards, open panes and
    rewrite titles. *)

#[global] Instance ListName_eq_dec : EqDecision ListName.
Proof. solve_decision. Defined.

(** ** Looking up the selected card *)






(** ** Views coming and going *)

(** The first statement of [registerView]: a view is added once. *)
Definition add_view (view : View) (m : Manager) : Manager :=
  if bool_decide (view_id view ∈ map view_id (viewSet m)) then m
  else set_viewSet (viewSet m ++ [view]) m.

(** [unregisterView]; the second component tells whether [onEmpty] was
    called. *)
Definition unregisterView (view : nat) (m : Manager) : Manager * bool :=
  if bool_decide (view ∈ map view_id (viewSet m)) then
    let views := filter (fun v => view_id v <> view) (viewSet m) in
    (set_viewSet views m, bool_decide (length views = 0))
  else (m, false).

(** ** Reading the document *)

(** The board [getParsedBoard] starts from.  [path] is [this.file.path];
    [ref] is the identity of the new settings object. *)
Definition blank_board (E : Env) (path : string) (ref : nat) : Board :=
  mkBoard path []
    (mkBoardData [] [] [] [] [] []
       (mkSettings ref {[frontmatterKey E := JStr "board"]}) ∅ false []).

(** [getParsedBoard]; [mdToBoard] is [this.parser.mdToBoard].  The text is a
    sequence of code units.  The second component is what went to
    [console.error]. *)
Definition getParsedBoard (E : Env) (mdToBoard : list N -> Result Board)
    (path : string) (ref : nat) (data : list N) : Board * list Event :=
  let trimmedContent := InlineField.trim data in
  let board := blank_board E path ref in
  match trimmedContent with
  | [] => (board, [])
  | _ :: _ =>
      match mdToBoard trimmedContent with
      | Ok parsed => (parsed, [])
      | Threw e => (push_error e board, [EvConsoleError e])
      end
  end.



(** ** Drilling down from a pane ([components/SidePane/SidePaneItemCard.tsx]) *)

Definition set_previousPaneMode (p : option ListName) (m : Manager) : Manager :=
  mkManager (state m) (compiledSettings m) (globalSettings m) (viewSet m)
    (stateReceivers m) (settingsNotifiers m) (selectedItemId m)
    (isArchiveOpen m) (isDoneOpen m) (isDelegatedOpen m) (isRecurringOpen m)
    (isProposalsOpen m) (isWaitingOpen m) p
    (lastDeletedBuffer m) (log m).

Definition close_pane (paneType : ListName) (m : Manager) : Manager :=
  match paneType with
  | LArchive => closeArchive m
  | LDone => closeDone m
  | LDelegated => closeDelegated m
  | LRecurring => closeRecurring m
  | LProposals => closeProposals m
  | LWaiting => closeWaiting m
  end.

Definition handleCardClick (paneType : ListName) (item : Item) (m : Manager)
  : Manager :=
  selectItem (Some (item_id item))
    (close_pane paneType (set_previousPaneMode (Some paneType) m)).

Definition pane_flag (paneType : ListName) (m : Manager) : bool :=
  match paneType with
  | LArchive => isArchiveOpen m
  | LDone => isDoneOpen m
  | LDelegated => isDelegatedOpen m
  | LRecurring => isRecurringOpen m
  | LProposals => isProposalsOpen m
  | LWaiting => isWaitingOpen m
  end.

(** The operations that clear every other flag when they open a pane, the
    ones that close a pane, and deselection. *)
Definition clears_others (op : PaneOp) : bool :=
  match op with
  | SelectItem None
  | CloseArchive | CloseDone | CloseDelegated
  | CloseRecurring | CloseProposals | CloseWaiting
  | OpenRecurring | ToggleRecurring
  | OpenProposals | ToggleProposals
  | OpenWaiting | ToggleWaiting => true
  | _ => false
  end.

(** ** Moving cards between lists

    The handlers of the components that take a card out of one list and
    put it into another.  Each hands one function to [setState], which is
    called with saving on. *)



(** *** [components/SidePane/SidePaneItemCard.tsx] *)





(** *** [components/ArchivePane/ArchivePane.tsx] *)



(** *** The Delegate entry of the card menu ([components/Item/ItemMenu.ts]) *)



(** *** The status select of the detail pane
    ([components/SidePane/DetailContent.tsx]) *)











(** *** The status select of the older detail pane
    ([components/DetailPane/DetailPane.tsx]) *)



(** ** Counting cards *)



(** ** Inline notes field

    [getNotesFromTitle] and [updateNotesInTitle] of
    [components/SidePane/DetailContent.tsx], with the two functions of the
    language they call.  Texts are sequences of UTF-16 code units. *)

Module NotesField.
Import InlineField.

(** *** [encodeURIComponent] *)

(** The characters left as they are: letters, digits, and hyphen,
  underscore, full stop, exclamation mark, tilde, asterisk, apostrophe and
  the two round brackets. *)
Definition unreserved (c : N) : bool :=
((65 <=? c)%N && (c <=? 90)%N) || ((97 <=? c)%N && (c <=? 122)%N)
|| ((48 <=? c)%N && (c <=? 57)%N)
|| bool_decide (c ∈ [45; 95; 46; 33; 126; 42; 39; 40; 41]%N).

Definition hex_digit (d : N) : N :=
if (d <? 10)%N then (48 + d)%N else (55 + d)%N.

(** [%XX], with upper-case digits. *)
Definition percent (b : N) : list N :=
[37%N; hex_digit (b / 16); hex_digit (b mod 16)].

(** The octets of a code point in UTF-8. *)
Definition utf8 (v : N) : list N :=
if (v <? 128)%N then [v]
else if (v <? 2048)%N then [192 + v / 64; 128 + v mod 64]%N
else if (v <? 65536)%N then
  [224 + v / 4096; 128 + (v / 64) mod 64; 128 + v mod 64]%N
else
  [240 + v / 262144; 128 + (v / 4096) mod 64; 128 + (v / 64) mod 64;
   128 + v mod 64]%N.

(** Leading and trailing surrogates. *)
Definition is_lead (c : N) : bool := (55296 <=? c)%N && (c <=? 56319)%N.
Definition is_trail (c : N) : bool := (56320 <=? c)%N && (c <=? 57343)%N.

(** The code point of a surrogate pair. *)
Definition pair_value (lead trail : N) : N :=
((lead - 55296) * 1024 + (trail - 56320) + 65536)%N.

Definition escape (v : N) : list N := concat (map percent (utf8 v)).

(** [None] stands for the URIError raised at a surrogate that has no
  partner. *)
Fixpoint encodeURIComponent (s : list N) : option (list N) :=
match s with
| [] => Some []
| c :: s' =>
    if unreserved c then cons c <$> encodeURIComponent s'
    else if is_trail c then None
    else if is_lead c then
      match s' with
      | k :: s'' =>
          if is_trail k
          then app (escape (pair_value c k)) <$> encodeURIComponent s''
          else None
      | [] => None
      end
    else app (escape c) <$> encodeURIComponent s'
end.

(** *** [decodeURIComponent] *)

Definition hex_value (c : N) : option N :=
if (48 <=? c)%N && (c <=? 57)%N then Some (c - 48)%N
else if (65 <=? c)%N && (c <=? 70)%N then Some (c - 55)%N
else if (97 <=? c)%N && (c <=? 102)%N then Some (c - 87)%N
else None.

(** [%XX] at the start of [s]: the octet and what follows. *)
Definition parse_octet (s : list N) : option (N * list N) :=
match s with
| c :: h :: l :: rest =>
    if (c =? 37)%N then
      match hex_value h, hex_value l with
      | Some a, Some b => Some (16 * a + b, rest)%N
      | _, _ => None
      end
    else None
| _ => None
end.

Fixpoint parse_octets (n : nat) (s : list N) : option (list N * list N) :=
match n with
| O => Some ([], s)
| S n' =>
    match parse_octet s with
    | Some (b, r) =>
        match parse_octets n' r with
        | Some (bs, r') => Some (b :: bs, r')
        | None => None
        end
    | None => None
    end
end.

(** The number of leading 1 bits of an octet; 5 stands for more than 4. *)
Definition leading_ones (b : N) : nat :=
if (b <? 128)%N then 0
else if (b <? 192)%N then 1
else if (b <? 224)%N then 2
else if (b <? 240)%N then 3
else if (b <? 248)%N then 4
else 5.

Definition continuation (b : N) : bool := (128 <=? b)%N && (b <? 192)%N.

(** The code point of a well-formed sequence of two to four octets: the
  octets after the first are continuation octets, the encoding is the
  shortest one, and the code point is no surrogate and at most 10FFFF. *)
Definition utf8_decode (octets : list N) : option N :=
match octets with
| [b1; b2] =>
    let v := ((b1 - 192) * 64 + (b2 - 128))%N in
    if continuation b2 && (128 <=? v)%N then Some v else None
| [b1; b2; b3] =>
    let v := ((b1 - 224) * 4096 + (b2 - 128) * 64 + (b3 - 128))%N in
    if continuation b2 && continuation b3 && (2048 <=? v)%N
       && negb ((55296 <=? v)%N && (v <=? 57343)%N)
    then Some v else None
| [b1; b2; b3; b4] =>
    let v := ((b1 - 240) * 262144 + (b2 - 128) * 4096 + (b3 - 128) * 64
              + (b4 - 128))%N in
    if continuation b2 && continuation b3 && continuation b4
       && (65536 <=? v)%N && (v <=? 1114111)%N
    then Some v else None
| _ => None
end.

(** The code units of a code point. *)
Definition utf16 (v : N) : list N :=
if (v <? 65536)%N then [v]
else [55296 + (v - 65536) / 1024; 56320 + (v - 65536) mod 1024]%N.

(** One step of the decoding loop at [c :: s']: the code units it appends
  and what is left, or [None] for a URIError. *)
Definition decode_one (c : N) (s' : list N) : option (list N * list N) :=
if negb (c =? 37)%N then Some ([c], s')
else
  match parse_octet (c :: s') with
  | None => None
  | Some (b, r) =>
      match leading_ones b with
      | 0 => Some ([b], r)
      | 1 => None
      | S (S (S (S (S _)))) => None
      | S n' =>
          match parse_octets n' r with
          | None => None
          | Some (bs, r') =>
              match utf8_decode (b :: bs) with
              | Some v => Some (utf16 v, r')
              | None => None
              end
          end
      end
  end.

(** The loop; [skip] counts the code units of the current escape sequence
  still to be passed over. *)
Fixpoint decode_from (skip : nat) (s : list N) : option (list N) :=
match s with
| [] => Some []
| c :: s' =>
    match skip with
    | S k => decode_from k s'
    | O =>
        match decode_one c s' with
        | None => None
        | Some (units, rest) =>
            app units <$> decode_from (length s' - length rest) s'
        end
    end
end.

Definition decodeURIComponent (s : list N) : option (list N) := decode_from 0 s.

(** *** The field *)

Definition opener : list N := code_units "[notes::".

(** The capture group and the closing bracket at the start of [s]: the
  capture runs to the first closing bracket; without one there is no
  match. *)
Fixpoint until_bracket (s : list N) : option (list N * list N) :=
match s with
| [] => None
| c :: s' =>
    if (c =? 93)%N then Some ([], s')
    else
      match until_bracket s' with
      | Some (capture, rest) => Some (c :: capture, rest)
      | None => None
      end
end.

(** The pattern of the field at the start of [s]: the opening, in either
  case, the capture and the closing bracket. *)
Definition match_notes (s : list N) : option (list N * list N) :=
match match_literal opener s with
| Some rest => until_bracket rest
| None => None
end.

(** The capture of the first match in [s]. *)
Fixpoint first_notes (s : list N) : option (list N) :=
match match_notes s with
| Some (capture, _) => Some capture
| None =>
    match s with
    | [] => None
    | _ :: rest => first_notes rest
    end
end.

(** [s.replace(NOTES_REGEX, '')], as [replace_from] does it for the
  priority. *)
Fixpoint replace_notes_from (skip : nat) (s : list N) : list N :=
match s with
| [] => []
| c :: s' =>
    match skip with
    | S k => replace_notes_from k s'
    | O =>
        match match_notes s with
        | Some (_, rest) => replace_notes_from (length s' - length rest) s'
        | None => c :: replace_notes_from 0 s'
        end
    end
end.

Definition replace_notes (s : list N) : list N := replace_notes_from 0 s.

Definition getNotesFromTitle (titleRaw : list N) : list N :=
match first_notes titleRaw with
| Some (c :: capture) =>
    match decodeURIComponent (c :: capture) with
    | Some notes => notes
    | None => c :: capture
    end
| _ => []
end.

(** [None] stands for the URIError of [encodeURIComponent], which the
  function lets through. *)
Definition updateNotesInTitle (titleRaw notes : list N) : option (list N) :=
let cleaned := trim (replace_notes titleRaw) in
if bool_decide (notes = []) || bool_decide (trim notes = []) then Some cleaned
else
  match encodeURIComponent notes with
  | Some encoded =>
      Some (cleaned ++ code_units " [notes::" ++ encoded ++ code_units "]")
  | None => None
  end.

(** The opening of a notes field somewhere in [s]. *)
Fixpoint has_opener (s : list N) : bool :=
match match_literal opener s with
| Some _ => true
| None =>
    match s with
    | [] => false
    | _ :: rest => has_opener rest
    end
end.

(** Code units, with every surrogate in a pair. *)
Fixpoint well_formed (s : list N) : bool :=
match s with
| [] => true
| c :: s' =>
    if is_trail c then false
    else if is_lead c then
      match s' with
      | k :: s'' => is_trail k && well_formed s''
      | [] => false
      end
    else (c <? 65536)%N && well_formed s'
end.

(** What [updateTitle], [updatePriority] and [updateNotes] write: the
  priority is put in first, then the notes. *)
Definition with_fields (text : list N) (priority : Priority) (notes : list N)
: option (list N) :=
updateNotesInTitle (updatePriorityInTitle text priority) notes.

(** [updateTitle]: the fields of the card's title are carried over to the
  new text. *)
Definition updateTitle (titleRaw newTitle : list N) : option (list N) :=
with_fields newTitle (getPriorityFromTitle titleRaw) (getNotesFromTitle titleRaw).

(** A code point that is no surrogate. *)
Definition scalar (v : N) : Prop :=
(v < 1114112)%N /\ ~ (55296 <= v <= 57343)%N.

(** The characters of an encoded text. *)
Definition plain (c : N) : Prop := unreserved c = true \/ c = 37%N.

Arguments match_notes : simpl never.

End NotesField.

(** ** Adding a row to an invoice

    The second half of [TabulaBridge.appendLineItem]
    ([components/SidePane/RecurringContent.tsx]): the search for the place
    of the new row in the lines of the invoice, and the insertion.  The
    lines are those of [content.split] at the line feeds; the row is
    built from the title of the card and the date before the search. *)

Module Tabula.
Import InlineField.

(** [s.startsWith(p)] and [s.includes(sub)] on code units. *)
Fixpoint startsWith (p s : list N) : bool :=
match p, s with
| [], _ => true
| c :: p', d :: s' => (c =? d)%N && startsWith p' s'
| _ :: _, [] => false
end.

Fixpoint includes (sub s : list N) : bool :=
startsWith sub s
|| match s with
   | [] => false
   | _ :: s' => includes sub s'
   end.

(** The test for the header of the table of line items. *)
Definition is_header (line : list N) : bool :=
includes (code_units "| Date") line
&& (includes (code_units "| Description") line
    || includes (code_units "| End") line).

(** The test for the separator line, with the precedence of the source:
  the second alternative does not ask for [inLineItems]. *)
Definition is_separator (inLineItems : bool) (line : list N) : bool :=
(inLineItems && startsWith (code_units "|:") line)
|| startsWith (code_units "| :") line.

(** The first loop, from line [i] on; [None] stands for -1. *)
Fixpoint scan (inLineItems : bool) (i : nat) (lines : list (list N))
: option nat :=
match lines with
| [] => None
| line :: rest =>
    if is_header line then scan true (S i) rest
    else if is_separator inLineItems line then scan inLineItems (S i) rest
    else if inLineItems
            && (negb (startsWith (code_units "|") line)
                || bool_decide (trim line = []))
    then Some i
    else scan inLineItems (S i) rest
end.

(** The second loop: the first line that starts the totals. *)
Fixpoint find_totals (i : nat) (lines : list (list N)) : option nat :=
match lines with
| [] => None
| line :: rest =>
    if startsWith (code_units "## Totals") line then Some i
    else find_totals (S i) rest
end.

Definition insertIndex (lines : list (list N)) : option nat :=
match scan false 0 lines with
| Some i => Some i
| None => find_totals 0 lines
end.

(** The lines that are written back; [None] stands for the error raised
  when no place is found. *)
Definition appendLineItem (lines : list (list N)) (newRow : list N)
: option (list (list N)) :=
match insertIndex lines with
| Some i => Some (splice_in i newRow lines)
| None => None
end.

End Tabula.

(** ** The title on a card of a pane

    [getDisplayTitle] of [components/SidePane/SidePaneItemCard.tsx]: the
    inline fields and the date stamps are taken out of the title. *)

Module CardTitle.
Import InlineField.

(** The class of a field's name: letters, digits, underscore and hyphen. *)
Definition name_char (c : N) : bool :=
((65 <=? c)%N && (c <=? 90)%N) || ((97 <=? c)%N && (c <=? 122)%N)
|| ((48 <=? c)%N && (c <=? 57)%N) || (c =? 95)%N || (c =? 45)%N.

(** The longest run of name characters at the start of [s], and what
  follows it. *)
Fixpoint name_run (s : list N) : list N * list N :=
match s with
| [] => ([], [])
| c :: s' =>
    if name_char c then let '(run, rest) := name_run s' in (c :: run, rest)
    else ([], s)
end.

(** An inline field at the start of [s]: an opening bracket, a name, two
  colons, and the text up to the first closing bracket.  The name is the
  longest run: a shorter one is followed by a name character, not by a
  colon.  The answer is what follows the field. *)
Definition match_field (s : list N) : option (list N) :=
match s with
| c :: s1 =>
    if (c =? 91)%N then
      match name_run s1 with
      | (_ :: _, c1 :: c2 :: s3) =>
          if (c1 =? 58)%N && (c2 =? 58)%N
          then snd <$> NotesField.until_bracket s3
          else None
      | _ => None
      end
    else None
| [] => None
end.

(** The text up to the first closing brace, which has to be there. *)
Fixpoint until_brace (s : list N) : option (list N * list N) :=
match s with
| [] => None
| c :: s' =>
    if (c =? 125)%N then Some ([], s')
    else
      match until_brace s' with
      | Some (capture, rest) => Some (c :: capture, rest)
      | None => None
      end
end.

(** A date stamp at the start of [s]: an at sign, an opening brace, at
  least one character and the closing brace. *)
Definition match_stamp (s : list N) : option (list N) :=
match s with
| c1 :: c2 :: s' =>
    if (c1 =? 64)%N && (c2 =? 123)%N then
      match until_brace s' with
      | Some (_ :: _, rest) => Some rest
      | _ => None
      end
    else None
| _ => None
end.

(** [s.replace(re, '')] with the [g] flag, for a pattern given by its
  match at the start of a text. *)
Fixpoint remove_all (pattern : list N -> option (list N)) (skip : nat)
  (s : list N) : list N :=
match s with
| [] => []
| c :: s' =>
    match skip with
    | S k => remove_all pattern k s'
    | O =>
        match pattern s with
        | Some rest => remove_all pattern (length s' - length rest) s'
        | None => c :: remove_all pattern 0 s'
        end
    end
end.

(** [titleRaw] and [title] are the two texts of the card. *)
Definition getDisplayTitle (titleRaw title : list N) : list N :=
let title0 := if bool_decide (titleRaw = []) then title else titleRaw in
let title1 := trim (remove_all match_field 0 title0) in
let title2 := trim (remove_all match_stamp 0 title1) in
if bool_decide (title2 = []) then code_units "Untitled" else title2.

(** The fields the detail pane writes, as they stand in a title. *)
Definition priority_field (p : Priority) : list N :=
match p with
| Standard => []
| _ => priority_token p
end.

Definition notes_field (e : option (list N)) : list N :=
match e with
| Some encoded => code_units " [notes::" ++ encoded ++ code_units "]"
| None => []
end.

End CardTitle.

(** ** More sample data *)

Module Cases.


(** A parser that rejects every document. *)
Definition rejecting (text : list N) : Result Board := Threw Sample.boom.




(** The lines of a new invoice, cut short. *)
Definition invoice_header : list N :=
  InlineField.code_units "| Date | Description | Qty | Amount |".

Definition invoice_separator : list N :=
  InlineField.code_units "|:-----|:------------|----:|-------:|".

Definition invoice_row (day text : string) : list N :=
  InlineField.code_units ("| " +:+ day +:+ " |  | " +:+ text +:+ " |  |  |").

End Cases.

(** * Properties *)

(** ** Saving *)

Section Saving.
Variable E : Env.

Lemma record_nil m : record [] m = m.
Proof. destruct m; unfold record, set_log; simpl. by rewrite app_nil_r. Qed.

Lemma record_record evs evs' m :
  record evs' (record evs m) = record (evs ++ evs') m.
Proof. unfold record, set_log; simpl. by rewrite app_assoc. Qed.

Lemma bind_run {A B} (c : M A) (k : A -> M B) m :
  (c ≫= k) m
  = match c m with
    | (Threw e, m') => (Threw e, m')
    | (Ok a, m') => k a m'
    end.
Proof. reflexivity. Qed.

(** The three ways [saveToDisk] can go. *)
Lemma saveToDisk_cases m :
  saveToDisk E m =
    if bool_decide (0 < length (errors (data (state m)))) then (Ok tt, m)
    else match viewSet m with
         | [] => (Ok tt, m)
         | view :: _ =>
             match boardToMd E (state m) with
             | Threw e => (Threw e, record [EvBoardToMd (state m)] m)
             | Ok fileStr =>
                 (Ok tt,
                  set_viewSet (map (set_view_data fileStr) (viewSet m))
                    (record [EvBoardToMd (state m);
                             EvRequestSaveToDisk (view_id view) fileStr] m))
             end
         end.
Proof.
  unfold saveToDisk. rewrite bind_run. unfold get at 1.
  case_bool_decide; [done|].
  destruct (viewSet m) as [|view vs] eqn:Hv; [done|].
  rewrite bind_run. unfold emit at 1, modify at 1.
  rewrite bind_run. unfold lift.
  destruct (boardToMd E (state m)) as [e|fileStr]; simpl; [done|].
  rewrite bind_run. unfold emit, modify. rewrite record_record. simpl.
  by rewrite Hv.
Qed.

Lemma saveToDisk_guard m :
  errors (data (state m)) <> [] -> saveToDisk E m = (Ok tt, m).
Proof.
  intros Herr. rewrite saveToDisk_cases, bool_decide_true; [done|].
  destruct (errors (data (state m))); [done | simpl; lia].
Qed.

(** Without errors and with a view attached, the text the Format returns
    reaches the first view and every view's cache. *)
Lemma saveToDisk_writes m view views fileStr :
  errors (data (state m)) = [] ->
  viewSet m = view :: views ->
  boardToMd E (state m) = Ok fileStr ->
  exists m',
    saveToDisk E m = (Ok tt, m')
    /\ log m' = log m ++ [EvBoardToMd (state m);
                          EvRequestSaveToDisk (view_id view) fileStr]
    /\ Forall (fun v => view_data v = fileStr) (viewSet m').
Proof.
  intros Herr Hv Hmd. rewrite saveToDisk_cases, Herr, Hv, Hmd. simpl.
  eexists; split; [done|]. split; [done|].
  simpl. rewrite Forall_forall. intros v Hin.
  change (v ∈ map (set_view_data fileStr) (view :: views)) in Hin.
  apply list_elem_of_fmap in Hin as (v' & -> & _). done.
Qed.

End Saving.

(** C3 (save guard).  When the board carries at least one error,
    [saveToDisk] returns at once and the manager is the one it was called
    on: the Format was not asked for the text (the log has no new
    [EvBoardToMd]), no view was handed a text (no new
    [EvRequestSaveToDisk]), and every view keeps its cached document
    text. *)
Theorem saveToDisk_with_errors_writes_nothing (E : Env) (m : Manager) :
  0 < length (errors (data (state m))) ->
  saveToDisk E m = (Ok tt, m)
  /\ log (saveToDisk E m).2 = log m
  /\ requested_saves (log (saveToDisk E m).2) = requested_saves (log m)
  /\ viewSet (saveToDisk E m).2 = viewSet m.
Proof.
  intros Herr.
  assert (Hrun : saveToDisk E m = (Ok tt, m)).
  { apply saveToDisk_guard.
    destruct (errors (data (state m))); [simpl in Herr; lia | done]. }
  by rewrite Hrun.
Qed.

(** ** State transitions *)

(** *** What the log shows *)

Lemma setting_events_app l l' :
  setting_events (l ++ l') = setting_events l ++ setting_events l'.
Proof. apply omap_app. Qed.

Lemma received_boards_app l l' :
  received_boards (l ++ l') = received_boards l ++ received_boards l'.
Proof. apply omap_app. Qed.

Lemma requested_saves_app l l' :
  requested_saves (l ++ l') = requested_saves l ++ requested_saves l'.
Proof. apply omap_app. Qed.

Lemma setting_events_view b vs : setting_events (view_events b vs) = [].
Proof. induction vs; simpl; auto. Qed.

Lemma received_boards_view b vs : received_boards (view_events b vs) = [].
Proof. induction vs; simpl; auto. Qed.

Lemma requested_saves_view b vs : requested_saves (view_events b vs) = [].
Proof. induction vs; simpl; auto. Qed.

Lemma setting_events_receive b rs : setting_events (receive_events b rs) = [].
Proof. induction rs; simpl; auto. Qed.

Lemma requested_saves_receive b rs : requested_saves (receive_events b rs) = [].
Proof. induction rs; simpl; auto. Qed.

Lemma received_boards_receive b rs :
  received_boards (receive_events b rs) = replicate (length rs) b.
Proof. induction rs; simpl; [done|]. by f_equal. Qed.

Lemma received_boards_changed old new ns :
  received_boards (changed_listeners old new ns) = [].
Proof.
  induction ns as [|[k fns] ns IH]; simpl; [done|].
  rewrite received_boards_app, IH, app_nil_r.
  destruct (prop_strict_ne _ _); [|done].
  simpl. induction fns; simpl; auto.
Qed.

Ltac tidy_log :=
  simpl;
  repeat first
    [ rewrite setting_events_app | rewrite received_boards_app
    | rewrite requested_saves_app
    | rewrite setting_events_view | rewrite received_boards_view
    | rewrite requested_saves_view
    | rewrite setting_events_receive | rewrite received_boards_receive
    | rewrite requested_saves_receive
    | rewrite received_boards_changed
    | rewrite app_nil_r | progress simpl ].

Section Transitions.
Variable E : Env.

Lemma install_plain old b m :
  shouldRefreshBoard E old (settings (data b)) = false ->
  install E old b m = (Ok tt, installed E b m).
Proof. intros H. unfold install. rewrite H. reflexivity. Qed.

Lemma install_refresh old b m :
  shouldRefreshBoard E old (settings (data b)) = true ->
  let m1 :=
    set_state (set_data (set_settings (settings (data b)) (data (state m)))
                 (state m)) m in
  let m2 :=
    record [EvReparseBoard]
      (set_compiledSettings (compiled_object E None m1) m1) in
  install E old b m
  = match reparseBoard E (state m2) (compiledSettings m2) with
    | Threw e => (Threw e, m2)
    | Ok b' => (Ok tt, set_state b' m2)
    end.
Proof.
  intros H. unfold install. rewrite H. simpl.
  repeat (rewrite bind_run; simpl). unfold lift.
  match goal with
  | |- context [reparseBoard E ?a ?c] => destruct (reparseBoard E a c)
  end; reflexivity.
Qed.

Lemma announce_run old b save m :
  let m2 := record (view_events b (viewSet m)) m in
  announce E old b save m
  = match when save (saveToDisk E) m2 with
    | (Threw e, m') => (Threw e, m')
    | (Ok _, m3) =>
        (Ok tt,
         record (receive_events (state m3) (stateReceivers m3)
                 ++ (if negb (bool_decide (s_ref old = s_ref (settings (data b))))
                     then changed_listeners old (settings (data b))
                            (settingsNotifiers m3)
                     else [])) m3)
    end.
Proof.
  simpl. unfold announce. rewrite bind_run. unfold get at 1.
  rewrite bind_run. unfold emit at 1, modify at 1.
  rewrite bind_run.
  destruct (when save (saveToDisk E) _) as [[e|[]] m3]; [done|].
  rewrite bind_run. unfold get at 1. rewrite bind_run.
  unfold notify_receivers. rewrite bind_run. unfold get at 1.
  unfold emit at 1, modify at 1.
  destruct (negb _); simpl.
  - unfold emit, modify. by rewrite record_record.
  - unfold ret. by rewrite app_nil_r.
Qed.

Lemma setState_try_run arg save m :
  setState_try E arg save m
  = match candidate arg m with
    | (Threw e, m') => (Threw e, m')
    | (Ok b, m') =>
        match install E (settings (data (state m))) b m' with
        | (Threw e, m'') => (Threw e, m'')
        | (Ok _, m'') => announce E (settings (data (state m))) b save m''
        end
    end.
Proof.
  unfold setState_try. rewrite bind_run. unfold get at 1.
  rewrite bind_run. destruct (candidate arg m) as [[e|b] m']; [done|].
  rewrite bind_run. by destruct (install _ _ _ _) as [[e|[]] m''].
Qed.

Lemma candidate_state arg m r m' : candidate arg m = (r, m') -> m' = m.
Proof.
  unfold candidate. rewrite bind_run. unfold get at 1.
  destruct arg; unfold ret, lift; congruence.
Qed.

(** *** Saving leaves the model alone *)

Lemma saveToDisk_frame m r m' :
  saveToDisk E m = (r, m') ->
  state m' = state m /\ aux m' = aux m
  /\ compiledSettings m' = compiledSettings m
  /\ setting_events (log m') = setting_events (log m)
  /\ received_boards (log m') = received_boards (log m).
Proof.
  rewrite saveToDisk_cases. case_bool_decide.
  { intros [= <- <-]. done. }
  destruct (viewSet m) as [|view vs].
  { intros [= <- <-]. done. }
  destruct (boardToMd E (state m)) as [e|fileStr]; intros [= <- <-]; simpl;
    rewrite setting_events_app, received_boards_app; simpl;
    by rewrite !app_nil_r.
Qed.

(** *** The error transition *)

(** When pushing an error does not call for a new parse, the error
    transition runs to its end: it installs the board with one more
    error, refreshes the views and tells the receivers; it neither saves
    nor invokes a settings listener. *)
Lemma setError_settles fuel e m :
  shouldRefreshBoard E (settings (data (state m))) (settings (data (state m)))
  = false ->
  let b := push_error e (state m) in
  setError E (S fuel) e m
  = Some (record (receive_events b (stateReceivers m))
            (record (view_events b (viewSet m)) (installed E b m))).
Proof.
  intros Hre b. unfold setError; fold setError. unfold catch_with.
  rewrite setState_try_run. unfold candidate. rewrite bind_run. unfold get at 1.
  unfold ret. rewrite install_plain by done.
  rewrite announce_run. simpl. unfold ret.
  rewrite bool_decide_true by done. simpl. by rewrite app_nil_r.
Qed.


Lemma forceRefresh_returns fuel m :
  (forall s, shouldRefreshBoard E s s = false) ->
  is_Some (forceRefresh E (S fuel) m).
Proof.
  intros Hre. unfold forceRefresh, catch_with.
  destruct (forceRefresh_try E m) as [[e|[]] m1]; [|by eexists].
  rewrite setError_settles by apply Hre. by eexists.
Qed.

(** Without that, the error transition can call for a parse that raises
    again, and so on without end. *)
Lemma setError_nests_without_end fuel e m :
  (forall s s', shouldRefreshBoard E s s' = true) ->
  (forall b c, exists e', reparseBoard E b c = Threw e') ->
  setError E fuel e m = None.
Proof.
  intros Hre Hparse. revert e m.
  induction fuel as [|fuel IH]; intros e m; [done|].
  unfold setError; fold setError. unfold catch_with.
  rewrite setState_try_run. unfold candidate. rewrite bind_run.
  unfold get at 1, ret. rewrite install_refresh by apply Hre. cbv zeta.
  match goal with
  | |- context [reparseBoard E ?b ?c] => destruct (Hparse b c) as [e' ->]
  end.
  apply IH.
Qed.

(** *** A transition that keeps the settings object *)


End Transitions.

(** ** Failing mutations *)



(** ** Undo buffer *)

Section Undo.
Variable E : Env.




End Undo.








(** *** Deleting, then restoring *)










(** ** Selection and panes *)

Lemma pane_step_invariant m op :
  pane_invariant m -> pane_invariant (pane_step m op).
Proof.
  unfold pane_invariant. destruct m as [st cs gs vs rs ns sel a d g r p w pm buf lg].
  simpl. intros [Hsel Hone].
  destruct op as [[i|]| | | | | | | | | | | | | | | | | |];
    destruct a, d, g, r, p, w; vm_compute in Hone |- *;
    first [ lia | split; [first [done | by auto | intros; congruence] | lia] ].
Qed.

Lemma pane_run_invariant ops m :
  pane_invariant m -> pane_invariant (pane_run ops m).
Proof.
  revert m. induction ops as [|op ops IH]; intros m Hm; [done|].
  simpl. apply IH. by apply pane_step_invariant.
Qed.

Lemma opens_clears_selection m op :
  opens op m = true -> selectedItemId (pane_step m op) = None.
Proof.
  destruct m as [st cs gs vs rs ns sel a d g r p w pm buf lg].
  destruct op as [i| | | | | | | | | | | | | | | | | |]; simpl; try done;
    intros ->%negb_true_iff; done.
Qed.

Lemma sole_flag_after_open m op flags :
  opens op m = true -> sole_flag op = Some flags ->
  overlay_flags (pane_step m op) = flags.
Proof.
  destruct m as [st cs gs vs rs ns sel a d g r p w pm buf lg].
  destruct op as [i| | | | | | | | | | | | | | | | | |]; simpl; try done;
    try (intros _ [= <-]; done);
    intros ->%negb_true_iff [= <-]; done.
Qed.

(** C2, as amended (selection and panes).  After every finite sequence of
    selection and pane operations from the initial state, an open archive
    overlay goes with no selected card, and at most one of the recurring,
    proposals and waiting overlays is open.  An operation that opens a pane
    leaves no card selected, and opening recurring, proposals or waiting
    leaves that flag as the only one set.  Selecting a card closes the
    archive overlay and keeps the other five flags. *)
Theorem pane_operations_invariant (b : Board) (global : gmap string JsVal)
    (views : list View) (ops : list PaneOp) :
  let m := pane_run ops (new_manager b global views) in
  pane_invariant m
  /\ (forall op, opens op m = true -> selectedItemId (pane_step m op) = None)
  /\ (forall op flags,
        opens op m = true -> sole_flag op = Some flags ->
        overlay_flags (pane_step m op) = flags)
  /\ (forall itemId,
        overlay_flags (selectItem (Some itemId) m)
        = false :: tail (overlay_flags m)).
Proof.
  intros m. split.
  { apply pane_run_invariant. split; [done | vm_compute; lia]. }
  split; [intros; by apply opens_clears_selection|].
  split; [intros; by apply sole_flag_after_open|].
  intros itemId. by destruct m.
Qed.

(** C2, as stated, fails.  Opening the recurring pane and then the archive
    pane leaves two flags set; opening the done pane and then selecting a
    card leaves a flag set next to a selected card. *)
Lemma pane_exclusion_counterexample :
  let m0 := new_manager (mkBoard "board.md" []
                           (mkBoardData [] [] [] [] [] [] (mkSettings 0 ∅) ∅ false []))
              ∅ [] in
  ~ pane_exclusion (pane_run [OpenRecurring; OpenArchive] m0)
  /\ ~ pane_exclusion (pane_run [OpenDone; SelectItem (Some "card-1")] m0).
Proof.
  split; intros [Hcount Hsel].
  - vm_compute in Hcount. lia.
  - specialize (Hsel ltac:(vm_compute; lia)). discriminate Hsel.
Qed.

(** ** Archiving completed cards *)

Section Archive.
Variable E : Env.





End Archive.


(** ** Settings compiler *)


Section Compiler.
Variable E : Env.







End Compiler.



(** ** Settings listeners *)

Section Listeners.
Variable E : Env.

Lemma elem_of_changed_listeners old new ns key listener :
  (key, listener) ∈ setting_events (changed_listeners old new ns)
  <-> registered key listener ns
      /\ prop_strict_ne (s_map old !! key) (s_map new !! key) = true.
Proof.
  unfold registered. induction ns as [|[k fns] ns IH]; simpl.
  { split; [by intros ?%elem_of_nil|]. by intros [(? & ?%elem_of_nil & _) _]. }
  rewrite setting_events_app, elem_of_app, IH. clear IH.
  assert (Hhere : (key, listener)
                    ∈ setting_events
                        (if prop_strict_ne (s_map old !! k) (s_map new !! k)
                         then map (EvSetting k) fns else [])
                  <-> key = k /\ listener ∈ fns
                      /\ prop_strict_ne (s_map old !! k) (s_map new !! k) = true).
  { destruct (prop_strict_ne _ _); simpl.
    - induction fns as [|fn fns IHf]; simpl.
      + split; [by intros ?%elem_of_nil | by intros (_ & ?%elem_of_nil & _)].
      + rewrite !elem_of_cons, IHf. split.
        * intros [[= -> ->]|(-> & ? & _)]; auto.
        * intros (-> & [->|?] & _); auto.
    - split; [by intros ?%elem_of_nil | by intros (_ & _ & ?)]. }
  rewrite Hhere. split.
  - intros [(-> & Hin & Hne)|[(f & Hf & Hin) Hne]].
    + split; [|done]. exists fns. split; [by left | done].
    + split; [|done]. exists f. split; [by right | done].
  - intros [(f & Hf & Hin) Hne]. apply elem_of_cons in Hf as [[= -> ->]|Hf].
    + by left.
    + right. split; [|done]. by exists f.
Qed.

Lemma elem_of_all_listeners ns key listener :
  (key, listener) ∈ setting_events (all_listeners ns)
  <-> registered key listener ns.
Proof.
  unfold registered. induction ns as [|[k fns] ns IH]; simpl.
  { split; [by intros ?%elem_of_nil | by intros (? & ?%elem_of_nil & _)]. }
  rewrite setting_events_app, elem_of_app, IH. clear IH.
  assert (Hhere : (key, listener) ∈ setting_events (map (EvSetting k) fns)
                  <-> key = k /\ listener ∈ fns).
  { induction fns as [|fn fns IHf]; simpl.
    - split; [by intros ?%elem_of_nil | by intros (_ & ?%elem_of_nil)].
    - rewrite !elem_of_cons, IHf. split.
      + intros [[= -> ->]|(-> & ?)]; auto.
      + intros (-> & [->|?]); auto. }
  rewrite Hhere. split.
  - intros [(-> & Hin)|(f & Hf & Hin)].
    + exists fns. split; [by left | done].
    + exists f. split; [by right | done].
  - intros (f & Hf & Hin). apply elem_of_cons in Hf as [[= -> ->]|Hf].
    + by left.
    + right. by exists f.
Qed.

Lemma install_frame old b m r m' :
  install E old b m = (r, m') ->
  setting_events (log m') = setting_events (log m)
  /\ settingsNotifiers m' = settingsNotifiers m.
Proof.
  destruct (shouldRefreshBoard E old (settings (data b))) eqn:Hre.
  - rewrite install_refresh by done. cbv zeta.
    match goal with
    | |- context [reparseBoard E ?a ?c] => destruct (reparseBoard E a c)
    end; intros [= <- <-]; tidy_log; done.
  - rewrite install_plain by done. by intros [= <- <-].
Qed.

(** What the rest of the [try] block adds, by its outcome. *)
Lemma announce_listeners old b save m r m' :
  announce E old b save m = (r, m') ->
  setting_events (log m')
  = setting_events (log m)
    ++ match r with
       | Ok _ =>
           if bool_decide (s_ref old = s_ref (settings (data b))) then []
           else setting_events
                  (changed_listeners old (settings (data b)) (settingsNotifiers m))
       | Threw _ => []
       end.
Proof.
  rewrite announce_run. cbv zeta.
  destruct (when save (saveToDisk E) _) as [[e|[]] m3] eqn:Hsave.
  - intros [= <- <-]. destruct save; [|done]. simpl in Hsave.
    apply saveToDisk_frame in Hsave as (_ & _ & _ & -> & _).
    tidy_log. done.
  - intros [= <- <-].
    assert (Hm3 : setting_events (log m3) = setting_events (log m)
                  /\ settingsNotifiers m3 = settingsNotifiers m).
    { destruct save; simpl in Hsave.
      - apply saveToDisk_frame in Hsave as (_ & Haux & _ & -> & _).
        split; [by tidy_log|]. by injection Haux.
      - injection Hsave as <-. split; [by tidy_log|done]. }
    destruct Hm3 as [Hlog Hns].
    rewrite <- Hlog, Hns. simpl log. rewrite setting_events_app.
    f_equal. rewrite setting_events_app, setting_events_receive. simpl.
    by case_bool_decide.
Qed.

Lemma setState_try_listeners arg save m r m' :
  setState_try E arg save m = (r, m') ->
  setting_events (log m')
  = setting_events (log m)
    ++ match r, candidate arg m with
       | Ok _, (Ok b, _) =>
           if bool_decide (s_ref (settings (data (state m)))
                           = s_ref (settings (data b))) then []
           else setting_events
                  (changed_listeners (settings (data (state m)))
                     (settings (data b)) (settingsNotifiers m))
       | _, _ => []
       end.
Proof.
  rewrite setState_try_run.
  destruct (candidate arg m) as [[e|b] m1] eqn:Hc.
  { apply candidate_state in Hc as ->. intros [= <- <-]. by rewrite app_nil_r. }
  apply candidate_state in Hc as ->.
  destruct (install E _ b m) as [[e|[]] m2] eqn:Hi.
  { apply install_frame in Hi as [Hlog _]. intros [= <- <-].
    by rewrite Hlog, app_nil_r. }
  apply install_frame in Hi as [Hlog Hns].
  intros Ha. apply announce_listeners in Ha. rewrite Ha, Hlog, Hns.
  by destruct r.
Qed.

(** The error transition invokes no listener, however deep it nests. *)
Lemma setError_listeners fuel e m m' :
  setError E fuel e m = Some m' ->
  setting_events (log m') = setting_events (log m).
Proof.
  revert e m. induction fuel as [|fuel IH]; intros e m; [done|].
  unfold setError; fold setError. unfold catch_with.
  destruct (setState_try E _ false m) as [[e'|[]] m1] eqn:Htry.
  - apply setState_try_listeners in Htry. rewrite app_nil_r in Htry.
    intros Herr. apply IH in Herr. rewrite Herr. by tidy_log.
  - apply setState_try_listeners in Htry. intros [= <-].
    unfold candidate in Htry. rewrite bind_run in Htry.
    unfold get at 1, ret in Htry. simpl in Htry.
    rewrite bool_decide_true in Htry by done. by rewrite app_nil_r in Htry.
Qed.

Lemma setState_listeners fuel arg save m m' :
  setState E fuel arg save m = Some m' ->
  setting_events (log m')
  = setting_events (log m)
    ++ match setState_try E arg save m, candidate arg m with
       | (Ok _, _), (Ok b, _) =>
           if bool_decide (s_ref (settings (data (state m)))
                           = s_ref (settings (data b))) then []
           else setting_events
                  (changed_listeners (settings (data (state m)))
                     (settings (data b)) (settingsNotifiers m))
       | _, _ => []
       end.
Proof.
  unfold setState, catch_with.
  destruct (setState_try E arg save m) as [[e|[]] m1] eqn:Htry.
  - apply setState_try_listeners in Htry. rewrite app_nil_r in Htry.
    intros Herr%setError_listeners. rewrite Herr, app_nil_r. by tidy_log.
  - intros [= <-]. by apply setState_try_listeners in Htry.
Qed.

Lemma forceRefresh_try_listeners m r m' :
  forceRefresh_try E m = (r, m') ->
  setting_events (log m')
  = setting_events (log m)
    ++ match r with
       | Ok _ => setting_events (all_listeners (settingsNotifiers m))
       | Threw _ => []
       end.
Proof.
  unfold forceRefresh_try, compileSettings.
  repeat (rewrite bind_run; simpl). unfold lift, notify_receivers.
  match goal with
  | |- context [reparseBoard E ?a ?c] => destruct (reparseBoard E a c)
  end.
  - intros [= <- <-]. by tidy_log.
  - repeat (rewrite bind_run; simpl). intros [= <- <-]. tidy_log.
    change (map (fun r => EvReceive r ?b) ?rs) with (receive_events b rs).
    rewrite setting_events_receive, app_nil_r.
    rewrite <- (app_nil_r (_ ++ setting_events (all_listeners _))) at 2.
    f_equal. induction (viewSet m); simpl; auto.
Qed.

Lemma forceRefresh_listeners fuel m m' :
  forceRefresh E fuel m = Some m' ->
  setting_events (log m')
  = setting_events (log m)
    ++ match forceRefresh_try E m with
       | (Ok _, _) => setting_events (all_listeners (settingsNotifiers m))
       | _ => []
       end.
Proof.
  unfold forceRefresh, catch_with.
  destruct (forceRefresh_try E m) as [[e|[]] m1] eqn:Htry.
  - apply forceRefresh_try_listeners in Htry. rewrite app_nil_r in Htry.
    intros Herr%setError_listeners. rewrite Herr, app_nil_r. by tidy_log.
  - intros [= <-]. by apply forceRefresh_try_listeners in Htry.
Qed.

End Listeners.

(** C9, as amended (settings listeners).  A listener registered for a key
    is invoked by [setState] exactly when the [try] block runs to its end,
    the candidate board carries another settings object than the current
    board, and the key's own property differs ([!==]) between the two
    settings objects of the board; the compiled value is not looked at.
    [forceRefresh] invokes every registered listener whenever its [try]
    block runs to its end. *)
Theorem listeners_follow_board_settings (E : Env) (fuel : nat) (m : Manager) :
  (forall arg shouldSave m' key listener,
     setState E fuel arg shouldSave m = Some m' ->
     ((key, listener) ∈ new_setting_events (log m) (log m')
      <-> exists b,
            candidate arg m = (Ok b, m)
            /\ (exists m1, setState_try E arg shouldSave m = (Ok tt, m1))
            /\ s_ref (settings (data (state m))) <> s_ref (settings (data b))
            /\ prop_strict_ne (s_map (settings (data (state m))) !! key)
                 (s_map (settings (data b)) !! key) = true
            /\ registered key listener (settingsNotifiers m)))
  /\ (forall m' key listener,
        forceRefresh E fuel m = Some m' ->
        ((key, listener) ∈ new_setting_events (log m) (log m')
         <-> (exists m1, forceRefresh_try E m = (Ok tt, m1))
             /\ registered key listener (settingsNotifiers m))).
Proof.
  split.
  - intros arg save m' key listener Hrun.
    apply setState_listeners in Hrun.
    unfold new_setting_events. rewrite Hrun, drop_app_length.
    destruct (setState_try E arg save m) as [[e|[]] m1] eqn:Htry.
    { split; [by intros ?%elem_of_nil|]. by intros (_ & _ & (? & ?) & _). }
    destruct (candidate arg m) as [[e|b] m2] eqn:Hc.
    { split; [by intros ?%elem_of_nil|]. by intros (? & ? & _). }
    pose proof (candidate_state _ _ _ _ Hc) as ->.
    case_bool_decide as Href.
    { split; [by intros ?%elem_of_nil|].
      intros (b' & [= <-] & _ & Hne & _). done. }
    rewrite elem_of_changed_listeners. split.
    + intros [Hreg Hne]. exists b. eauto 10.
    + intros (b' & [= <-] & _ & _ & Hne & Hreg). done.
  - intros m' key listener Hrun.
    apply forceRefresh_listeners in Hrun.
    unfold new_setting_events. rewrite Hrun, drop_app_length.
    destruct (forceRefresh_try E m) as [[e|[]] m1] eqn:Htry.
    { split; [by intros ?%elem_of_nil|]. by intros [(? & ?) _]. }
    rewrite elem_of_all_listeners. split; [eauto|]. by intros [_ ?].
Qed.

(** C9, as stated, fails.  The board gains a local date format equal to the
    global one: the listener of that key is invoked although the compiled
    date format is the same before and after. *)
Lemma listeners_follow_resolved_value_counterexample :
  ~ listeners_follow_resolved_value.
Proof.
  intros H.
  set (m := Sample.compiled_global_only).
  set (b := Sample.repeats_global).
  set (m' := default m (setState Sample.env 1 (SBoard b) true m)).
  assert (Hrun : setState Sample.env 1 (SBoard b) true m = Some m')
    by (vm_compute; reflexivity).
  assert (Hfired : new_setting_events (log m) (log m') = [("date-format", 3)])
    by (vm_compute; reflexivity).
  assert (Hsame : compiledSettings m !! "date-format"
                  = compiledSettings m' !! "date-format")
    by (vm_compute; reflexivity).
  assert (Hreg : registered "date-format" 3 (settingsNotifiers m)).
  { exists [3]. split; apply elem_of_cons; by left. }
  destruct (H Sample.env 1 (SBoard b) true m m' "date-format" 3 eq_refl Hrun Hreg)
    as [Hfwd _].
  apply Hfwd; [|done]. rewrite Hfired. apply elem_of_cons. by left.
Qed.

(** ** Inline priority field *)

Module InlineFieldFacts.
Import InlineField.

(** *** A literal, a longer subject and a space *)

Lemma match_literal_app pat s r b :
  match_literal pat s = Some r ->
  match_literal pat (s ++ b) = Some (r ++ b).
Proof.
  revert s. induction pat as [|p pat IH]; intros s; simpl.
  { by intros [= ->]. }
  destruct s as [|c s]; [done|]. simpl.
  destruct (canonicalize p =? canonicalize c)%N; [apply IH | done].
Qed.

Lemma match_literal_none_prefix pat s b :
  match_literal pat (s ++ b) = None -> match_literal pat s = None.
Proof.
  revert s. induction pat as [|p pat IH]; intros s; simpl; [done|].
  destruct s as [|c s]; [done|]. simpl.
  destruct (canonicalize p =? canonicalize c)%N; [apply IH | done].
Qed.

Lemma match_literal_none_space pat a b :
  no_space pat = true ->
  match_literal pat a = None ->
  match_literal pat (a ++ 32%N :: b) = None.
Proof.
  revert a. induction pat as [|p pat IH]; intros a; simpl; [done|].
  intros [Hp Hpat]%andb_prop.
  destruct a as [|c a]; simpl.
  - intros _. change (canonicalize 32) with 32%N.
    by destruct (canonicalize p =? 32)%N.
  - destruct (canonicalize p =? canonicalize c)%N; [by apply IH | done].
Qed.

Lemma alternative_no_space p :
  no_space (code_units (priority_name p) ++ code_units "]") = true.
Proof. by destruct p. Qed.

Lemma match_alternatives_none_prefix alts s b :
  match_alternatives alts (s ++ b) = None -> match_alternatives alts s = None.
Proof.
  induction alts as [|p alts IH]; simpl; [done|].
  destruct (match_literal _ (s ++ b)) eqn:Hlit; [done|].
  apply match_literal_none_prefix in Hlit. rewrite Hlit. apply IH.
Qed.

Lemma match_alternatives_none_space alts a b :
  match_alternatives alts a = None ->
  match_alternatives alts (a ++ 32%N :: b) = None.
Proof.
  induction alts as [|p alts IH]; simpl; [done|].
  destruct (match_literal _ a) eqn:Hlit; [done|].
  rewrite match_literal_none_space by (apply alternative_no_space || done).
  apply IH.
Qed.

Lemma match_token_none_prefix alts s b :
  match_token alts (s ++ b) = None -> match_token alts s = None.
Proof.
  unfold match_token.
  destruct (match_literal _ s) as [r|] eqn:Hlit; [|done].
  rewrite (match_literal_app _ _ _ b Hlit).
  apply match_alternatives_none_prefix.
Qed.

Lemma match_token_none_space alts a b :
  match_token alts a = None -> match_token alts (a ++ 32%N :: b) = None.
Proof.
  unfold match_token.
  destruct (match_literal _ a) as [r|] eqn:Hlit.
  - rewrite (match_literal_app _ _ _ (32%N :: b) Hlit).
    apply match_alternatives_none_space.
  - intros _. by rewrite match_literal_none_space.
Qed.

(** The read pattern and the menu's test match only where
    [PRIORITY_REGEX] does. *)
Lemma match_token_read_none s :
  match_token PRIORITY_REGEX s = None -> match_token READ_REGEX s = None.
Proof.
  unfold match_token, PRIORITY_REGEX, READ_REGEX.
  destruct (match_literal _ s) as [r|]; [|done].
  cbn [match_alternatives].
  by destruct (match_literal (code_units (priority_name Standard) ++ _) r).
Qed.

(** *** Titles without a token *)

Lemma has_token_cons x s :
  has_token (x :: s) = false ->
  match_token PRIORITY_REGEX (x :: s) = None /\ has_token s = false.
Proof.
  simpl. by destruct (match_token PRIORITY_REGEX (x :: s)).
Qed.

Lemma has_token_suffix a s : has_token (a ++ s) = false -> has_token s = false.
Proof.
  induction a as [|x a IH]; [done|].
  intros [_ H]%has_token_cons. by apply IH.
Qed.

Lemma has_token_prefix s b : has_token (s ++ b) = false -> has_token s = false.
Proof.
  induction s as [|x s IH].
  - intros _. reflexivity.
  - change ((x :: s) ++ b) with (x :: (s ++ b)).
    intros [Hm Hs]%has_token_cons. simpl.
    change (x :: s ++ b) with ((x :: s) ++ b) in Hm.
    rewrite (match_token_none_prefix _ _ _ Hm). by apply IH.
Qed.

Lemma replace_no_token s : has_token s = false -> replace_priority s = s.
Proof.
  unfold replace_priority. induction s as [|x s IH]; [done|].
  intros [Hm Hs]%has_token_cons. simpl. rewrite Hm. by rewrite IH.
Qed.

Lemma count_no_token s : has_token s = false -> count_tokens s = 0.
Proof.
  unfold count_tokens. induction s as [|x s IH]; [done|].
  intros [Hm Hs]%has_token_cons. simpl. rewrite Hm. by apply IH.
Qed.

Lemma read_no_token s : has_token s = false -> getPriorityFromTitle s = Standard.
Proof.
  induction s as [|x s IH]; [done|].
  intros [Hm Hs]%has_token_cons. simpl.
  rewrite (match_token_read_none _ Hm). by apply IH.
Qed.

(** *** Trimming *)

Lemma trim_start_suffix s : exists w, s = w ++ trim_start s.
Proof.
  induction s as [|c s [w IH]]; [by exists []|]. simpl.
  destruct (is_white_space c).
  - exists (c :: w). simpl. by rewrite <- IH.
  - by exists [].
Qed.

Lemma trim_start_head s x r :
  trim_start s = x :: r -> is_white_space x = false.
Proof.
  induction s as [|c s IH]; [done|]. simpl.
  destruct (is_white_space c) eqn:Hc; [done|]. by intros [= <- _].
Qed.

Lemma trim_start_fixed s x r :
  s = x :: r -> is_white_space x = false -> trim_start s = s.
Proof. intros -> H. simpl. by rewrite H. Qed.

Lemma trim_start_idem s : trim_start (trim_start s) = trim_start s.
Proof.
  destruct (trim_start s) as [|x r] eqn:Hs; [done|].
  eapply trim_start_fixed; [done|]. by eapply trim_start_head.
Qed.

(** A trimmed title is a stretch of the title. *)
Lemma trim_stretch s : exists a b, s = a ++ trim s ++ b.
Proof.
  unfold trim.
  destruct (trim_start_suffix s) as [w Hs].
  destruct (trim_start_suffix (reverse (trim_start s))) as [w' Hr].
  exists w, (reverse w').
  rewrite <- reverse_app, <- Hr, reverse_involutive. done.
Qed.

Lemma trim_no_token s : has_token s = false -> has_token (trim s) = false.
Proof.
  destruct (trim_stretch s) as (a & b & Hs). rewrite Hs at 1.
  intros H%has_token_suffix. by apply has_token_prefix in H.
Qed.

Lemma trim_front s : trim_start (trim s) = trim s.
Proof.
  destruct (trim s) as [|x q] eqn:Ht; [done|].
  eapply trim_start_fixed; [done|].
  unfold trim in Ht.
  destruct (trim_start_suffix (reverse (trim_start s))) as [w' Hr].
  apply (f_equal reverse) in Hr.
  rewrite reverse_involutive, reverse_app, Ht in Hr.
  by eapply trim_start_head.
Qed.

Lemma trim_back s : trim_start (reverse (trim s)) = reverse (trim s).
Proof. unfold trim. by rewrite reverse_involutive, trim_start_idem. Qed.

Lemma trim_trimmed_space c :
  trim_start c = c -> trim_start (reverse c) = reverse c ->
  trim (c ++ [32%N]) = c.
Proof.
  intros Hfront Hback. unfold trim. destruct c as [|x c]; [done|].
  assert (Hx : is_white_space x = false) by (by eapply trim_start_head).
  rewrite (trim_start_fixed ((x :: c) ++ [32%N]) x (c ++ [32%N])) by done.
  rewrite reverse_app. simpl.
  change (is_white_space 32) with true. cbv iota.
  by rewrite Hback, reverse_involutive.
Qed.

Lemma trim_trimmed c :
  trim_start c = c -> trim_start (reverse c) = reverse c -> trim c = c.
Proof.
  intros Hfront Hback. unfold trim.
  by rewrite Hfront, Hback, reverse_involutive.
Qed.

(** *** A clean title followed by one token *)

Lemma priority_token_body p : priority_token p = 32%N :: token_body p.
Proof. by destruct p. Qed.

Lemma replace_from_step x s :
  match_token PRIORITY_REGEX (x :: s) = None ->
  replace_from 0 (x :: s) = x :: replace_from 0 s.
Proof. intros H. cbn [replace_from]. by rewrite H. Qed.

Lemma count_from_step x s :
  match_token PRIORITY_REGEX (x :: s) = None ->
  count_from 0 (x :: s) = count_from 0 s.
Proof. intros H. cbn [count_from]. by rewrite H. Qed.

Lemma read_step x s :
  match_token PRIORITY_REGEX (x :: s) = None ->
  getPriorityFromTitle (x :: s) = getPriorityFromTitle s.
Proof.
  intros H. cbn [getPriorityFromTitle].
  by rewrite (match_token_read_none _ H).
Qed.

Lemma replace_clean_token c p :
  has_token c = false ->
  replace_priority (c ++ priority_token p) = c ++ [32%N].
Proof.
  rewrite priority_token_body. unfold replace_priority.
  induction c as [|x c IH].
  - intros _. by destruct p; vm_compute.
  - intros [Hm Hc]%has_token_cons.
    change ((x :: c) ++ 32%N :: token_body p)
      with (x :: (c ++ 32%N :: token_body p)).
    rewrite replace_from_step; [by rewrite IH|].
    by apply (match_token_none_space _ (x :: c)).
Qed.

Lemma count_clean_token c p :
  has_token c = false -> count_tokens (c ++ priority_token p) = 1.
Proof.
  rewrite priority_token_body. unfold count_tokens.
  induction c as [|x c IH].
  - intros _. by destruct p; vm_compute.
  - intros [Hm Hc]%has_token_cons.
    change ((x :: c) ++ 32%N :: token_body p)
      with (x :: (c ++ 32%N :: token_body p)).
    rewrite count_from_step; [by apply IH|].
    by apply (match_token_none_space _ (x :: c)).
Qed.

Lemma read_clean_token c p :
  has_token c = false -> p <> Standard ->
  getPriorityFromTitle (c ++ priority_token p) = p.
Proof.
  rewrite priority_token_body. intros Hc Hp. revert Hc.
  induction c as [|x c IH].
  - intros _. by destruct p; [|vm_compute..].
  - intros [Hm Hc]%has_token_cons.
    change ((x :: c) ++ 32%N :: token_body p)
      with (x :: (c ++ 32%N :: token_body p)).
    rewrite read_step; [by apply IH|].
    by apply (match_token_none_space _ (x :: c)).
Qed.

(** Setting a priority on a title that has been set before: the first
    token goes, the title is the clean one again, the new token comes
    last. *)
Lemma update_twice t p1 p2 :
  has_token (replace_priority t) = false ->
  updatePriorityInTitle (updatePriorityInTitle t p1) p2
  = updatePriorityInTitle t p2.
Proof.
  intros Hclean. apply trim_no_token in Hclean.
  assert (Hc : trim (replace_priority (updatePriorityInTitle t p1))
               = trim (replace_priority t)).
  { unfold updatePriorityInTitle at 1.
    destruct p1.
    - rewrite replace_no_token by done.
      apply trim_trimmed; [apply trim_front | apply trim_back].
    - rewrite replace_clean_token by done.
      apply trim_trimmed_space; [apply trim_front | apply trim_back].
    - rewrite replace_clean_token by done.
      apply trim_trimmed_space; [apply trim_front | apply trim_back]. }
  unfold updatePriorityInTitle at 1 3. by rewrite Hc.
Qed.

End InlineFieldFacts.

(** C7, as amended (inline priority).  For every title from which one pass
    of removing the priority tokens leaves no priority token: the title
    written by setting the priority to high is the cleaned title followed
    by the one new token; it reads back as high and holds exactly one
    token; setting the priority again, after any earlier setting, gives the
    same title as setting it once, so that two applications in a row leave
    exactly one token.  The card menu writes that same title when the card
    is not yet of high priority. *)
Theorem priority_set_then_read (t : list N) :
  InlineField.has_token (InlineField.replace_priority t) = false ->
  InlineField.updatePriorityInTitle t InlineField.High
  = InlineField.trim (InlineField.replace_priority t)
    ++ InlineField.priority_token InlineField.High
  /\ InlineField.getPriorityFromTitle
       (InlineField.updatePriorityInTitle t InlineField.High)
     = InlineField.High
  /\ InlineField.count_tokens
       (InlineField.updatePriorityInTitle t InlineField.High) = 1
  /\ (forall p,
        InlineField.updatePriorityInTitle
          (InlineField.updatePriorityInTitle t p) InlineField.High
        = InlineField.updatePriorityInTitle t InlineField.High)
  /\ InlineField.count_tokens
       (InlineField.updatePriorityInTitle
          (InlineField.updatePriorityInTitle t InlineField.High)
          InlineField.High) = 1
  /\ (InlineField.test_high t = false ->
      InlineField.menu_high_priority t
      = InlineField.updatePriorityInTitle t InlineField.High).
Proof.
  intros Hclean.
  pose proof (InlineFieldFacts.trim_no_token _ Hclean) as Htrim.
  split; [done|]. split.
  { by apply InlineFieldFacts.read_clean_token. }
  split.
  { by apply InlineFieldFacts.count_clean_token. }
  split.
  { intros p. by apply InlineFieldFacts.update_twice. }
  split.
  { rewrite InlineFieldFacts.update_twice by done.
    by apply InlineFieldFacts.count_clean_token. }
  intros Hno. unfold InlineField.menu_high_priority. by rewrite Hno.
Qed.

(** C7, as stated, fails.  Removing the inner token of
    "[priority::[priority::high]low]" leaves the token "[priority::low]"
    in front of the new one, which then reads back as low; with one more
    level of nesting two applications leave two tokens. *)
Lemma priority_settles_counterexample :
  ~ InlineField.priority_settles_for_every_title.
Proof.
  intros H.
  destruct (H (InlineField.code_units "[priority::[priority::high]low]"))
    as [Hread _].
  vm_compute in Hread. discriminate Hread.
Qed.

(** The second half fails on its own as well. *)
Example priority_two_tokens_after_two_settings :
  InlineField.count_tokens
    (InlineField.updatePriorityInTitle
       (InlineField.updatePriorityInTitle
          (InlineField.code_units
             "[priority::[priority::[priority::high]high]low]")
          InlineField.High)
       InlineField.High) = 2.
Proof. by vm_compute. Qed.

(** * Worked instances *)

Lemma saveToDisk_with_errors_witness :
  0 < length (errors (data (state Sample.broken)))
  /\ saveToDisk Sample.env Sample.broken = (Ok tt, Sample.broken)
  /\ requested_saves (log (saveToDisk Sample.env Sample.broken).2) = [].
Proof.
  split; [simpl; lia|].
  destruct (saveToDisk_with_errors_writes_nothing Sample.env Sample.broken)
    as (Hrun & _ & Hsaves & _); [simpl; lia|].
  split; [exact Hrun | exact Hsaves].
Defined.





Lemma priority_set_then_read_witness :
  InlineField.has_token
    (InlineField.replace_priority
       (InlineField.code_units "Call Ada [priority::low] today")) = false
  /\ InlineField.getPriorityFromTitle
       (InlineField.updatePriorityInTitle
          (InlineField.code_units "Call Ada [priority::low] today")
          InlineField.High) = InlineField.High
  /\ InlineField.count_tokens
       (InlineField.updatePriorityInTitle
          (InlineField.updatePriorityInTitle
             (InlineField.code_units "Call Ada [priority::low] today")
             InlineField.High)
          InlineField.High) = 1.
Proof.
  split; [vm_compute; reflexivity|].
  destruct (priority_set_then_read
              (InlineField.code_units "Call Ada [priority::low] today"))
    as (_ & Hread & _ & _ & Htwice & _); [vm_compute; reflexivity|].
  split; [exact Hread | exact Htwice].
Defined.

Lemma pane_operations_witness :
  pane_invariant
    (pane_run [OpenDone; SelectItem (Some "a"); ToggleWaiting]
       (new_manager (state Sample.working) ∅ []))
  /\ overlay_flags
       (pane_step
          (pane_run [OpenDone; SelectItem (Some "a")]
             (new_manager (state Sample.working) ∅ []))
          ToggleWaiting)
     = [false; false; false; false; false; true].
Proof.
  split.
  - exact (proj1 (pane_operations_invariant (state Sample.working) ∅ []
                    [OpenDone; SelectItem (Some "a"); ToggleWaiting])).
  - destruct (pane_operations_invariant (state Sample.working) ∅ []
                [OpenDone; SelectItem (Some "a")]) as (_ & _ & Hsole & _).
    apply Hsole; reflexivity.
Defined.


Lemma listeners_witness :
  exists m',
    setState Sample.env 1 (SBoard Sample.repeats_global) true
      Sample.compiled_global_only = Some m'
    /\ ("date-format", 3)
       ∈ new_setting_events (log Sample.compiled_global_only) (log m').
Proof.
  set (m := Sample.compiled_global_only).
  set (m' := default m (setState Sample.env 1 (SBoard Sample.repeats_global) true m)).
  assert (Hrun : setState Sample.env 1 (SBoard Sample.repeats_global) true m
                 = Some m') by (vm_compute; reflexivity).
  exists m'. split; [exact Hrun|].
  destruct (listeners_follow_board_settings Sample.env 1 m) as [Hset _].
  apply (Hset (SBoard Sample.repeats_global) true m' "date-format" 3 Hrun).
  exists Sample.repeats_global.
  split; [reflexivity|].
  split; [eexists; vm_compute; reflexivity|].
  split; [vm_compute; lia|].
  split; [vm_compute; reflexivity|].
  exists [3]. split; apply elem_of_cons; left; reflexivity.
Defined.

(** * Further properties *)

(** ** Transitions and the document *)

Section Writes.
Variable E : Env.

Lemma requested_saves_changed old new ns :
  requested_saves (changed_listeners old new ns) = [].
Proof.
  induction ns as [|[k fns] ns IH]; simpl; [done|].
  rewrite requested_saves_app, IH, app_nil_r.
  destruct (prop_strict_ne _ _); [|done].
  simpl. induction fns; simpl; auto.
Qed.

Lemma requested_saves_all ns : requested_saves (all_listeners ns) = [].
Proof.
  induction ns as [|[k fns] ns IH]; simpl; [done|].
  rewrite requested_saves_app, IH, app_nil_r.
  induction fns; simpl; auto.
Qed.

Lemma install_writes old b m r m' :
  install E old b m = (r, m') ->
  requested_saves (log m') = requested_saves (log m)
  /\ viewSet m' = viewSet m.
Proof.
  destruct (shouldRefreshBoard E old (settings (data b))) eqn:Hre.
  - rewrite install_refresh by done. cbv zeta.
    match goal with
    | |- context [reparseBoard E ?a ?c] => destruct (reparseBoard E a c)
    end; intros [= <- <-]; tidy_log; done.
  - rewrite install_plain by done. by intros [= <- <-].
Qed.

Lemma announce_without_save old b m r m' :
  announce E old b false m = (r, m') ->
  requested_saves (log m') = requested_saves (log m)
  /\ viewSet m' = viewSet m.
Proof.
  rewrite announce_run. simpl. unfold ret. intros [= <- <-].
  simpl. rewrite !requested_saves_app, requested_saves_view,
    requested_saves_receive.
  destruct (negb _); [rewrite requested_saves_changed|];
    by rewrite !app_nil_r.
Qed.

Lemma setState_try_without_save arg m r m' :
  setState_try E arg false m = (r, m') ->
  requested_saves (log m') = requested_saves (log m)
  /\ viewSet m' = viewSet m.
Proof.
  rewrite setState_try_run.
  destruct (candidate arg m) as [[e|b] m1] eqn:Hc;
    apply candidate_state in Hc as ->.
  { by intros [= <- <-]. }
  destruct (install E _ b m) as [[e|[]] m2] eqn:Hi;
    apply install_writes in Hi as [Hlog Hviews].
  { intros [= <- <-]. done. }
  intros [Hlog' Hviews']%announce_without_save. split; congruence.
Qed.

Lemma setError_without_save fuel e m m' :
  setError E fuel e m = Some m' ->
  requested_saves (log m') = requested_saves (log m)
  /\ viewSet m' = viewSet m.
Proof.
  revert e m. induction fuel as [|fuel IH]; intros e m; [done|].
  unfold setError; fold setError. unfold catch_with.
  destruct (setState_try E _ false m) as [[e'|[]] m1] eqn:Htry;
    apply setState_try_without_save in Htry as [Hlog Hviews].
  - intros [Hlog' Hviews']%IH. simpl in *.
    rewrite requested_saves_app, app_nil_r in Hlog'. split; congruence.
  - by intros [= <-].
Qed.

Lemma catch_without_save fuel body m m' :
  (forall r m1, body m = (r, m1) ->
     requested_saves (log m1) = requested_saves (log m)
     /\ viewSet m1 = viewSet m) ->
  catch_with (setError E fuel) body m = Some m' ->
  requested_saves (log m') = requested_saves (log m)
  /\ viewSet m' = viewSet m.
Proof.
  intros Hbody. unfold catch_with.
  destruct (body m) as [[e|[]] m1] eqn:Hb;
    destruct (Hbody _ _ eq_refl) as [Hlog Hviews].
  - intros [Hlog' Hviews']%setError_without_save. simpl in *.
    rewrite requested_saves_app, app_nil_r in Hlog'. split; congruence.
  - by intros [= <-].
Qed.

Lemma forceRefresh_try_without_save m r m' :
  forceRefresh_try E m = (r, m') ->
  requested_saves (log m') = requested_saves (log m)
  /\ viewSet m' = viewSet m.
Proof.
  unfold forceRefresh_try, compileSettings.
  repeat (rewrite bind_run; simpl). unfold lift, notify_receivers.
  match goal with
  | |- context [reparseBoard E ?a ?c] => destruct (reparseBoard E a c)
  end.
  - intros [= <- <-]. by tidy_log.
  - repeat (rewrite bind_run; simpl). intros [= <- <-]. simpl.
    rewrite !requested_saves_app, requested_saves_all. simpl.
    change (map (fun r => EvReceive r ?b) ?rs) with (receive_events b rs).
    rewrite requested_saves_receive, !app_nil_r. split; [|done].
    rewrite <- (app_nil_r (requested_saves (log m))) at 2. f_equal.
    induction (viewSet m); simpl; auto.
Qed.

Lemma pane_step_writes m op :
  requested_saves (log (pane_step m op)) = requested_saves (log m)
  /\ viewSet (pane_step m op) = viewSet m
  /\ state (pane_step m op) = state m
  /\ lastDeletedBuffer (pane_step m op) = lastDeletedBuffer m.
Proof.
  destruct m as [st cs gs vs rs ns sel a d g r p w pm buf lg].
  assert (Hlog : requested_saves (lg ++ map (fun x => EvReceive x st) rs)
                 = requested_saves lg).
  { change (map (fun x => EvReceive x st) rs) with (receive_events st rs).
    by rewrite requested_saves_app, requested_saves_receive, app_nil_r. }
  destruct op as [[i|]| | | | | | | | | | | | | | | | | |];
    destruct a, d, g, r, p, w; simpl; rewrite Hlog; done.
Qed.

End Writes.

(** X1 (transitions that do not save).  [setState] called with
    [shouldSave = false], [setError], [forceRefresh] and every selection or
    pane operation hand no text to a view and leave every view's cached
    text as it was, whatever the Format and the settings policy do and
    however deep error transitions nest. *)
Theorem transitions_without_save (E : Env) (fuel : nat) (m m' : Manager) :
  (exists arg, setState E fuel arg false m = Some m')
  \/ (exists e, setError E fuel e m = Some m')
  \/ forceRefresh E fuel m = Some m'
  \/ (exists ops, pane_run ops m = m') ->
  requested_saves (log m') = requested_saves (log m)
  /\ viewSet m' = viewSet m.
Proof.
  intros [[arg Hrun]|[[e Hrun]|[Hrun|[ops Hrun]]]].
  - eapply catch_without_save; [|exact Hrun].
    intros r m1. apply setState_try_without_save.
  - by eapply setError_without_save.
  - eapply catch_without_save; [|exact Hrun].
    intros r m1. apply forceRefresh_try_without_save.
  - subst m'. revert m. induction ops as [|op ops IH]; intros m; [done|].
    simpl. destruct (IH (pane_step m op)) as [Hlog Hviews].
    destruct (pane_step_writes m op) as (Hlog1 & Hviews1 & _).
    change (foldl pane_step (pane_step m op) ops)
      with (pane_run ops (pane_step m op)).
    split; congruence.
Qed.

Section Saves.
Variable E : Env.



End Saves.








(** ** The union of the metadata keys *)





(** ** The selected card *)








(** ** Reading the document *)

Lemma trim_start_nil s :
  InlineField.trim_start s = [] <-> forallb InlineField.is_white_space s = true.
Proof.
  induction s as [|c s IH]; [done|]. simpl.
  destruct (InlineField.is_white_space c); simpl; [done|].
  split; intros; done.
Qed.

Lemma trim_start_white w s :
  forallb InlineField.is_white_space w = true ->
  InlineField.trim_start (w ++ s) = InlineField.trim_start s.
Proof.
  induction w as [|c w IH]; [done|]. simpl.
  intros [-> Hw]%andb_true_iff. by apply IH.
Qed.

Lemma trim_start_app s w :
  InlineField.trim_start s <> [] ->
  InlineField.trim_start (s ++ w) = InlineField.trim_start s ++ w.
Proof.
  induction s as [|c s IH]; [done|]. simpl.
  destruct (InlineField.is_white_space c); [done|]. done.
Qed.

Lemma forallb_reverse {A} (f : A -> bool) l :
  forallb f (reverse l) = forallb f l.
Proof.
  induction l as [|x l IH]; [done|].
  rewrite reverse_cons, forallb_app, IH. simpl.
  rewrite andb_true_r. apply andb_comm.
Qed.

Lemma trim_nil s :
  InlineField.trim s = [] <-> forallb InlineField.is_white_space s = true.
Proof.
  unfold InlineField.trim. split.
  - intros H. apply (f_equal reverse) in H.
    rewrite reverse_involutive in H. change (reverse []) with (@nil N) in H.
    apply trim_start_nil in H. rewrite forallb_reverse in H.
    apply trim_start_nil.
    destruct (InlineField.trim_start s) as [|x r] eqn:Hs; [done|].
    apply InlineFieldFacts.trim_start_head in Hs. simpl in H.
    by rewrite Hs in H.
  - intros H. apply trim_start_nil in H. by rewrite H.
Qed.

Lemma trim_white w1 s w2 :
  forallb InlineField.is_white_space w1 = true ->
  forallb InlineField.is_white_space w2 = true ->
  InlineField.trim (w1 ++ s ++ w2) = InlineField.trim s.
Proof.
  intros H1 H2. unfold InlineField.trim. rewrite trim_start_white by done.
  destruct (InlineField.trim_start s) as [|x r] eqn:Hs.
  - assert (Hall : forallb InlineField.is_white_space (s ++ w2) = true).
    { rewrite forallb_app, H2, andb_true_r. by apply trim_start_nil. }
    apply trim_start_nil in Hall. by rewrite Hall.
  - rewrite trim_start_app by (by rewrite Hs). rewrite Hs.
    rewrite reverse_app. rewrite trim_start_white; [done|].
    by rewrite forallb_reverse.
Qed.

(** X11 (white space around the document).  [getParsedBoard] returns the
    same board, and reports the same errors, for a document and for the
    document with white space added at either end; a document of white
    space alone gives the blank board whatever the parser would do. *)
Theorem getParsedBoard_ignores_outer_white_space (E : Env)
    (mdToBoard : list N -> Result Board) (path : string) (ref : nat)
    (w1 data w2 : list N) :
  forallb InlineField.is_white_space w1 = true ->
  forallb InlineField.is_white_space w2 = true ->
  getParsedBoard E mdToBoard path ref (w1 ++ data ++ w2)
  = getParsedBoard E mdToBoard path ref data
  /\ getParsedBoard E mdToBoard path ref (w1 ++ w2)
     = (blank_board E path ref, []).
Proof.
  intros H1 H2. unfold getParsedBoard. split.
  - by rewrite trim_white.
  - assert (Hall : InlineField.trim (w1 ++ w2) = []).
    { apply trim_nil. by rewrite forallb_app, H1, H2. }
    by rewrite Hall.
Qed.



(** ** Views coming and going *)

Lemma filter_other_ids view (views : list View) :
  view ∉ map view_id views ->
  filter (fun v => view_id v <> view) views = views.
Proof.
  induction views as [|v views IH]; [done|]. simpl.
  rewrite elem_of_cons. intros Hnot.
  rewrite filter_cons_True by (intros Heq; apply Hnot; by left).
  rewrite IH; [done|]. intros ?. apply Hnot. by right.
Qed.

Lemma NoDup_filter_ids view (views : list View) :
  NoDup (map view_id views) ->
  NoDup (map view_id (filter (fun v => view_id v <> view) views)).
Proof.
  induction views as [|v views IH]; [done|]. simpl.
  intros [Hv Hrest]%NoDup_cons.
  destruct (decide (view_id v = view)) as [Heq|Hne].
  - rewrite filter_cons_False by (intros ?; done). by apply IH.
  - rewrite filter_cons_True by done. simpl.
    apply NoDup_cons. split; [|by apply IH].
    rewrite list_elem_of_fmap. intros (v' & Hid & [_ Hv']%list_elem_of_filter).
    apply Hv. rewrite list_elem_of_fmap. by exists v'.
Qed.

(** X14 (the last view).  With every view registered once, [unregisterView]
    takes out that view and no other, keeps every view registered once,
    and calls [onEmpty] exactly when the view was the only one; a view
    that is not registered changes nothing.  Registering a new view and
    unregistering it gives back the manager. *)
Theorem unregisterView_calls_onEmpty_for_the_last_view (m : Manager)
    (view : View) :
  NoDup (map view_id (viewSet m)) ->
  let result := unregisterView (view_id view) m in
  NoDup (map view_id (viewSet (fst result)))
  /\ (forall v, v ∈ viewSet (fst result)
                <-> v ∈ viewSet m /\ view_id v <> view_id view)
  /\ (snd result = true <-> map view_id (viewSet m) = [view_id view])
  /\ ((view_id view ∉ map view_id (viewSet m)) ->
      result = (m, false)
      /\ unregisterView (view_id view) (add_view view m)
         = (m, bool_decide (length (viewSet m) = 0))).
Proof.
  intros Hnd. unfold unregisterView. cbv zeta.
  case_bool_decide as Hmem; simpl.
  - split; [by apply NoDup_filter_ids|]. split.
    { intros v. rewrite list_elem_of_filter. tauto. }
    split; [|done]. rewrite bool_decide_eq_true. split.
    + destruct (viewSet m) as [|v views]; [by apply elem_of_nil in Hmem|].
      simpl in Hnd, Hmem |- *. apply NoDup_cons in Hnd as [Hv Hrest].
      destruct (decide (view_id v = view_id view)) as [Heq|Hne].
      * rewrite filter_cons_False by (intros ?; done).
        rewrite Heq in Hv. rewrite (filter_other_ids _ _ Hv).
        destruct views; [by rewrite Heq|done].
      * by rewrite filter_cons_True.
    + destruct (viewSet m) as [|v [|v' views]]; [done| |done]. simpl.
      intros [= Hid]. by rewrite filter_cons_False by (intros ?; done).
  - split; [done|]. split.
    { intros v. split; [|tauto]. intros Hv. split; [done|].
      intros Heq. apply Hmem. rewrite list_elem_of_fmap. by exists v. }
    split.
    { split; [done|]. intros Heq. rewrite Heq in Hmem.
      exfalso. apply Hmem. by left. }
    intros _. split; [done|]. unfold add_view.
    rewrite (bool_decide_false _ Hmem). simpl.
    rewrite bool_decide_true
      by (rewrite map_app; apply elem_of_app; right; by left).
    rewrite filter_app, filter_cons_False, filter_nil, app_nil_r
      by (intros ?; done).
    rewrite (filter_other_ids _ _ Hmem).
    f_equal. by destruct m.
Qed.

(** ** Drilling down from a pane *)

(** X15 (clicking a card in a pane).  From a state where the pane is the
    one overlay that is open, a click on one of its cards leaves no overlay
    open, selects the card, remembers the pane to return to, leaves the
    board alone and hands it to every receiver twice. *)
Theorem handleCardClick_opens_the_detail_pane (paneType : ListName)
    (item : Item) (m : Manager) :
  pane_flag paneType m = true ->
  open_count (overlay_flags m) <= 1 ->
  let m' := handleCardClick paneType item m in
  overlay_flags m' = [false; false; false; false; false; false]
  /\ selectedItemId m' = Some (item_id item)
  /\ previousPaneMode m' = Some paneType
  /\ state m' = state m
  /\ received_boards (log m')
     = received_boards (log m)
       ++ replicate (2 * length (stateReceivers m)) (state m).
Proof.
  destruct m as [st cs gs vs rs ns sel a d g r p w pm buf lg].
  intros Hflag Hone.
  assert (Hlog : forall l : list Event,
            received_boards (map (fun r => EvReceive r st) rs)
            = replicate (length rs) st).
  { intros _. induction rs as [|x rs' IH]; [done|]. simpl. by rewrite IH. }
  destruct a, d, g, r, p, w; vm_compute in Hone; try lia;
    destruct paneType; simpl in Hflag; try done;
    (split; [done|]; split; [done|]; split; [done|]; split; [done|]);
    simpl; rewrite !received_boards_app, Hlog by exact [];
    rewrite <- app_assoc, <- replicate_add; do 2 f_equal; lia.
Qed.

(** X16 (the operations that keep the overlays exclusive).  Deselecting,
    closing a pane, and opening or toggling the recurring, proposals or
    waiting pane keep at most one overlay open and no overlay open beside
    a selected card. *)
Theorem clearing_operations_keep_exclusion (m : Manager) (op : PaneOp) :
  clears_others op = true ->
  pane_exclusion m ->
  pane_exclusion (pane_step m op).
Proof.
  unfold pane_exclusion.
  destruct m as [st cs gs vs rs ns sel a d g r p w pm buf lg].
  destruct op as [[i|]| | | | | | | | | | | | | | | | | |]; try done;
    intros _ [Hone Hsel]; destruct a, d, g, r, p, w;
    vm_compute in Hone, Hsel |- *;
    try lia; (split; [lia|]); intros; try done; try lia;
    try (apply Hsel; lia).
Qed.

(** ** Moving cards between lists *)

Section Moves.
Variable E : Env.


End Moves.















(** *** The status select *)













(** ** The notes field *)

Ltac div_lia := zify; Z.to_euclidean_division_equations; lia.

(** Deciding the comparisons of a goal by arithmetic. *)
Ltac decide_comparisons :=
  repeat match goal with
         | |- context [(?a <? ?b)%N] =>
             destruct (N.ltb_spec a b); try (exfalso; div_lia)
         | |- context [(?a <=? ?b)%N] =>
             destruct (N.leb_spec a b); try (exfalso; div_lia)
         end.

Module NotesFieldFacts.
Import InlineField NotesField.

Lemma hex_value_digit d : (d < 16)%N -> hex_value (hex_digit d) = Some d.
Proof.
  intros H. assert (Hd : d = N.of_nat (N.to_nat d)) by lia.
  assert (Hn : N.to_nat d < 16) by lia. revert Hd Hn.
  generalize (N.to_nat d). intros n -> Hn.
  do 16 (destruct n as [|n]; [reflexivity|]). lia.
Qed.

Lemma parse_octet_percent b rest :
  (b < 256)%N -> parse_octet (percent b ++ rest) = Some (b, rest).
Proof.
  intros H. unfold percent, parse_octet. cbn [app].
  rewrite N.eqb_refl, !hex_value_digit by div_lia.
  do 2 f_equal. div_lia.
Qed.

Lemma parse_octets_percent bs rest :
  Forall (fun b => (b < 256)%N) bs ->
  parse_octets (length bs) (concat (map percent bs) ++ rest) = Some (bs, rest).
Proof.
  induction 1 as [|b bs Hb Hbs IH]; [done|].
  cbn [length map concat parse_octets]. rewrite <- app_assoc.
  by rewrite parse_octet_percent, IH.
Qed.

Lemma utf8_octets v :
  scalar v -> Forall (fun b => (b < 256)%N) (utf8 v).
Proof.
  intros [Hv _]. unfold utf8. decide_comparisons;
    repeat (apply Forall_cons; split; [div_lia|]); constructor.
Qed.

Lemma utf8_decode_utf8 v :
  scalar v -> (128 <= v)%N ->
  exists b bs n,
    utf8 v = b :: bs /\ leading_ones b = S (S n) /\ n < 3
    /\ length bs = S n /\ utf8_decode (b :: bs) = Some v.
Proof.
  intros [Hv Hs] Hlow. unfold utf8.
  destruct (N.ltb_spec v 128); [lia|].
  destruct (N.ltb_spec v 2048); [|destruct (N.ltb_spec v 65536)].
  - exists (192 + v / 64)%N, [128 + v mod 64]%N, 0.
    split; [done|]. split.
    { unfold leading_ones. by decide_comparisons. }
    split; [lia|]. split; [done|]. unfold utf8_decode, continuation.
    replace ((192 + v / 64 - 192) * 64 + (128 + v mod 64 - 128))%N with v
      by div_lia.
    by decide_comparisons.
  - exists (224 + v / 4096)%N, [128 + (v / 64) mod 64; 128 + v mod 64]%N, 1.
    split; [done|]. split.
    { unfold leading_ones. by decide_comparisons. }
    split; [lia|]. split; [done|]. unfold utf8_decode, continuation.
    replace ((224 + v / 4096 - 224) * 4096 + (128 + (v / 64) mod 64 - 128) * 64
             + (128 + v mod 64 - 128))%N with v by div_lia.
    decide_comparisons; try done; lia.
  - exists (240 + v / 262144)%N,
      [128 + (v / 4096) mod 64; 128 + (v / 64) mod 64; 128 + v mod 64]%N, 2.
    split; [done|]. split.
    { unfold leading_ones. by decide_comparisons. }
    split; [lia|]. split; [done|]. unfold utf8_decode, continuation.
    replace ((240 + v / 262144 - 240) * 262144
             + (128 + (v / 4096) mod 64 - 128) * 4096
             + (128 + (v / 64) mod 64 - 128) * 64
             + (128 + v mod 64 - 128))%N with v by div_lia.
    decide_comparisons; try done; lia.
Qed.

Lemma escape_head v : exists x, escape v = 37%N :: x.
Proof.
  unfold escape, utf8. decide_comparisons; by eexists.
Qed.

(** Decoding the escape sequence of a code point gives its code units. *)
Lemma decode_one_escape v x rest :
  scalar v -> escape v = 37%N :: x ->
  decode_one 37 (x ++ rest) = Some (utf16 v, rest).
Proof.
  intros Hv Hx. unfold decode_one. cbn [N.eqb Pos.eqb negb].
  change (37%N :: x ++ rest) with ((37%N :: x) ++ rest). rewrite <- Hx.
  destruct (N.ltb_spec v 128) as [Hlow|Hlow].
  - unfold escape, utf8. destruct (N.ltb_spec v 128); [|lia].
    cbn [map concat]. rewrite app_nil_r.
    rewrite parse_octet_percent by lia.
    unfold leading_ones. destruct (N.ltb_spec v 128); [|lia].
    unfold utf16. by destruct (N.ltb_spec v 65536); [|lia].
  - destruct (utf8_decode_utf8 v Hv Hlow)
      as (b & bs & n & Hutf & Hlead & Hn & Hlen & Hdec).
    pose proof (utf8_octets v Hv) as Hoct. rewrite Hutf in Hoct.
    apply Forall_cons in Hoct as [Hb Hbs].
    unfold escape. rewrite Hutf. cbn [map concat]. rewrite <- app_assoc.
    rewrite parse_octet_percent by done. rewrite Hlead.
    assert (Hparse : parse_octets (S n) (concat (map percent bs) ++ rest)
                     = Some (bs, rest)).
    { rewrite <- Hlen. by apply parse_octets_percent. }
    destruct n as [|[|[|n]]]; [| | |lia]; by rewrite Hparse, Hdec.
Qed.

Lemma utf16_pair lead trail :
  is_lead lead = true -> is_trail trail = true ->
  scalar (pair_value lead trail)
  /\ utf16 (pair_value lead trail) = [lead; trail].
Proof.
  unfold is_lead, is_trail, pair_value, scalar, utf16.
  intros [H1 H2]%andb_true_iff [H3 H4]%andb_true_iff.
  apply N.leb_le in H1, H2, H3, H4.
  split; [lia|]. destruct (N.ltb_spec ((lead - 55296) * 1024
                                       + (trail - 56320) + 65536) 65536);
    [lia|].
  f_equal; [div_lia|]. f_equal. div_lia.
Qed.

Lemma decode_from_skip x rest :
  decode_from (length x) (x ++ rest) = decode_from 0 rest.
Proof. induction x as [|c x IH]; [by destruct rest|]. done. Qed.

Lemma decode_from_step c x rest units :
  decode_one c (x ++ rest) = Some (units, rest) ->
  decode_from 0 (c :: x ++ rest) = app units <$> decode_from 0 rest.
Proof.
  intros H. cbn [decode_from]. rewrite H.
  replace (length (x ++ rest) - length rest) with (length x)
    by (rewrite length_app; lia).
  by rewrite decode_from_skip.
Qed.

Lemma unreserved_not_percent c : unreserved c = true -> (c =? 37)%N = false.
Proof.
  destruct (N.eqb_spec c 37) as [->|]; [|done]. by vm_compute.
Qed.

Lemma hex_digit_plain d : (d < 16)%N -> plain (hex_digit d).
Proof.
  intros H. assert (Hd : d = N.of_nat (N.to_nat d)) by lia.
  assert (Hn : N.to_nat d < 16) by lia. revert Hd Hn.
  generalize (N.to_nat d). intros n -> Hn.
  do 16 (destruct n as [|n]; [by left|]). lia.
Qed.

Lemma escape_plain v : scalar v -> Forall plain (escape v).
Proof.
  intros Hv. pose proof (utf8_octets v Hv) as Hoct. unfold escape.
  induction Hoct as [|b bs Hb Hbs IH]; [done|]. cbn [map concat].
  apply Forall_app. split; [|done]. unfold percent.
  repeat (apply Forall_cons; split); [by right| | |done];
    apply hex_digit_plain; div_lia.
Qed.

Lemma plain_scalar c :
  (c < 65536)%N -> is_lead c = false -> is_trail c = false -> scalar c.
Proof.
  unfold is_lead, is_trail, scalar. intros Hc Hl Ht. split; [lia|].
  intros [H1 H2].
  destruct (N.leb_spec 55296 c), (N.leb_spec c 56319),
    (N.leb_spec 56320 c), (N.leb_spec c 57343); simpl in *; try done; lia.
Qed.

(** The round trip, for texts up to a given length. *)
Lemma round_trip_upto n s :
  length s <= n -> well_formed s = true ->
  exists e,
    encodeURIComponent s = Some e
    /\ decodeURIComponent e = Some s
    /\ Forall plain e
    /\ (s <> [] -> e <> []).
Proof.
  unfold decodeURIComponent. revert s.
  induction n as [|n IH]; intros s Hlen Hwf.
  { destruct s; [|simpl in Hlen; lia]. by exists []. }
  destruct s as [|c s]; [by exists []|].
  cbn [encodeURIComponent well_formed] in *.
  destruct (unreserved c) eqn:Hun.
  - assert (Hwf' : well_formed s = true).
    { destruct (is_trail c); [done|]. destruct (is_lead c) eqn:Hl.
      - exfalso. revert Hun Hl. unfold unreserved, is_lead.
        destruct (N.leb_spec 55296 c); [|done].
        intros Hun _. revert Hun.
        rewrite bool_decide_false
          by (rewrite !elem_of_cons, elem_of_nil; lia).
        decide_comparisons; done.
      - by apply andb_true_iff in Hwf as [_ ?]. }
    destruct (IH s) as (e & -> & Hdec & Hplain & _);
      [simpl in Hlen; lia|done|].
    exists (c :: e). split; [done|]. split.
    { cbn [decode_from]. unfold decode_one.
      rewrite (unreserved_not_percent c Hun). cbn [negb].
      by rewrite Nat.sub_diag, Hdec. }
    split; [|done]. apply Forall_cons. split; [by left|done].
  - destruct (is_trail c) eqn:Htrail; [done|].
    destruct (is_lead c) eqn:Hlead.
    + destruct s as [|k s]; [done|].
      apply andb_true_iff in Hwf as [Hk Hwf]. rewrite Hk.
      destruct (IH s) as (e & -> & Hdec & Hplain & _);
        [simpl in Hlen; lia|done|].
      destruct (utf16_pair c k Hlead Hk) as [Hscalar Hunits].
      destruct (escape_head (pair_value c k)) as [x Hx].
      exists (escape (pair_value c k) ++ e). split; [done|].
      split; [|split].
      * rewrite Hx. cbn [app].
        rewrite (decode_from_step 37 x e _
                   (decode_one_escape _ x e Hscalar Hx)).
        by rewrite Hdec, Hunits.
      * apply Forall_app. split; [by apply escape_plain|done].
      * intros _. by rewrite Hx.
    + apply andb_true_iff in Hwf as [Hc Hwf]. apply N.ltb_lt in Hc.
      destruct (IH s) as (e & -> & Hdec & Hplain & _);
        [simpl in Hlen; lia|done|].
      pose proof (plain_scalar c Hc Hlead Htrail) as Hscalar.
      destruct (escape_head c) as [x Hx].
      exists (escape c ++ e). split; [done|]. split; [|split].
      * rewrite Hx. cbn [app].
        rewrite (decode_from_step 37 x e _
                   (decode_one_escape _ x e Hscalar Hx)).
        rewrite Hdec. unfold utf16.
        by destruct (N.ltb_spec c 65536); [|lia].
      * apply Forall_app. split; [by apply escape_plain|done].
      * intros _. by rewrite Hx.
Qed.

Lemma encode_ill_formed n s :
  length s <= n -> Forall (fun c => (c < 65536)%N) s ->
  well_formed s = false -> encodeURIComponent s = None.
Proof.
  revert s. induction n as [|n IH]; intros s Hlen Hall Hwf.
  { destruct s; [done|simpl in Hlen; lia]. }
  destruct s as [|c s]; [done|].
  apply Forall_cons in Hall as [Hc Hall].
  cbn [encodeURIComponent well_formed] in *.
  destruct (unreserved c) eqn:Hun.
  - assert (Hl : is_lead c = false /\ is_trail c = false) .
    { revert Hun. unfold unreserved, is_lead, is_trail.
      destruct (N.leb_spec 55296 c); [|by destruct (N.leb_spec 56320 c); [lia|]].
      rewrite bool_decide_false
        by (rewrite !elem_of_cons, elem_of_nil; lia).
      decide_comparisons; done. }
    destruct Hl as [Hl Ht]. rewrite Hl, Ht in Hwf.
    rewrite (proj2 (N.ltb_lt _ _) Hc) in Hwf. simpl in Hwf.
    rewrite (IH s); [done|simpl in Hlen; lia|done|done].
  - destruct (is_trail c); [done|]. destruct (is_lead c).
    + destruct s as [|k s]; [done|].
      destruct (is_trail k); [|done]. simpl in Hwf.
      apply Forall_cons in Hall as [_ Hall].
      rewrite (IH s); [done|simpl in Hlen; lia|done|done].
    + rewrite (proj2 (N.ltb_lt _ _) Hc) in Hwf. simpl in Hwf.
      rewrite (IH s); [done|simpl in Hlen; lia|done|done].
Qed.

Lemma match_opener x : match_literal opener (opener ++ x) = Some x.
Proof.
  change (Some x) with (Some ([] ++ x)).
  apply InlineFieldFacts.match_literal_app. by vm_compute.
Qed.

Lemma plain_not_bracket c : plain c -> (c =? 93)%N = false.
Proof.
  intros [Hc| ->]; [|done].
  destruct (N.eqb_spec c 93) as [->|]; [|done]. by vm_compute in Hc.
Qed.

Lemma until_bracket_plain e r :
  Forall plain e -> until_bracket (e ++ 93%N :: r) = Some (e, r).
Proof.
  induction 1 as [|c e Hc He IH]; [done|]. cbn [app until_bracket].
  by rewrite (plain_not_bracket c Hc), IH.
Qed.

Lemma has_opener_cons x s :
  has_opener (x :: s) = false ->
  match_literal opener (x :: s) = None /\ has_opener s = false.
Proof.
  cbn [has_opener]. by destruct (match_literal opener (x :: s)).
Qed.

Lemma first_notes_none s : has_opener s = false -> first_notes s = None.
Proof.
  induction s as [|x s IH]; [done|].
  intros [Hm Hs]%has_opener_cons. cbn [first_notes].
  unfold match_notes. rewrite Hm. by apply IH.
Qed.

Lemma first_notes_after_space a b :
  has_opener a = false -> first_notes (a ++ 32%N :: b) = first_notes b.
Proof.
  induction a as [|x a IH].
  - intros _. cbn [app first_notes]. unfold match_notes at 1.
    by change (match_literal opener (32%N :: b)) with (@None (list N)).
  - intros [Hm Hs]%has_opener_cons.
    change ((x :: a) ++ 32%N :: b) with (x :: (a ++ 32%N :: b)).
    cbn [first_notes]. unfold match_notes at 1.
    change (x :: a ++ 32%N :: b) with ((x :: a) ++ 32%N :: b).
    rewrite InlineFieldFacts.match_literal_none_space by done.
    by apply IH.
Qed.

(** The field that [updateNotesInTitle] appends is the first one found. *)
Lemma first_notes_appended cleaned e :
  has_opener cleaned = false -> Forall plain e ->
  first_notes (cleaned ++ code_units " [notes::" ++ e ++ code_units "]")
  = Some e.
Proof.
  intros Hclean He.
  change (code_units " [notes::") with (32%N :: opener).
  change (code_units "]") with [93%N].
  change ((32%N :: opener) ++ e ++ [93%N])
    with (32%N :: (opener ++ e ++ [93%N])).
  rewrite first_notes_after_space by done.
  destruct (opener ++ e ++ [93%N]) as [|c r] eqn:Hs; [done|].
  cbn [first_notes]. rewrite <- Hs. unfold match_notes.
  by rewrite match_opener, until_bracket_plain.
Qed.

Lemma has_opener_suffix a s : has_opener (a ++ s) = false -> has_opener s = false.
Proof.
  induction a as [|x a IH]; [done|].
  intros [_ H]%has_opener_cons. by apply IH.
Qed.

Lemma has_opener_prefix s b : has_opener (s ++ b) = false -> has_opener s = false.
Proof.
  induction s as [|x s IH]; [done|].
  change ((x :: s) ++ b) with (x :: (s ++ b)).
  intros [Hm Hs]%has_opener_cons. cbn [has_opener].
  change (x :: s ++ b) with ((x :: s) ++ b) in Hm.
  apply InlineFieldFacts.match_literal_none_prefix in Hm. rewrite Hm.
  by apply IH.
Qed.

Lemma has_opener_trim s : has_opener s = false -> has_opener (trim s) = false.
Proof.
  destruct (InlineFieldFacts.trim_stretch s) as (a & b & Hs).
  rewrite Hs at 1. intros H%has_opener_suffix. by apply has_opener_prefix in H.
Qed.

Lemma has_opener_after_space a b :
  has_opener a = false -> has_opener (a ++ 32%N :: b) = has_opener b.
Proof.
  induction a as [|x a IH].
  - intros _. cbn [app has_opener].
    by change (match_literal opener (32%N :: b)) with (@None (list N)).
  - intros [Hm Hs]%has_opener_cons.
    change ((x :: a) ++ 32%N :: b) with (x :: (a ++ 32%N :: b)).
    cbn [has_opener].
    change (x :: a ++ 32%N :: b) with ((x :: a) ++ 32%N :: b).
    rewrite InlineFieldFacts.match_literal_none_space by done.
    by apply IH.
Qed.

Lemma replace_notes_none s : has_opener s = false -> replace_notes s = s.
Proof.
  unfold replace_notes. induction s as [|x s IH]; [done|].
  intros [Hm Hs]%has_opener_cons. cbn [replace_notes_from].
  unfold match_notes. rewrite Hm. by rewrite IH.
Qed.

(** The priority tokens hold no opening of a notes field. *)
Lemma has_opener_priority_token c p :
  has_opener c = false -> has_opener (c ++ priority_token p) = false.
Proof.
  intros Hc. rewrite InlineFieldFacts.priority_token_body.
  rewrite has_opener_after_space by done. by destruct p.
Qed.

Lemma match_alternatives_space alts s p r b :
  match_alternatives alts s = Some (p, r) ->
  match_alternatives alts (s ++ 32%N :: b) = Some (p, r ++ 32%N :: b).
Proof.
  induction alts as [|q alts IH]; [done|]. cbn [match_alternatives].
  destruct (match_literal _ s) as [r'|] eqn:Hlit.
  - intros [= <- <-].
    by rewrite (InlineFieldFacts.match_literal_app _ _ _ (32%N :: b) Hlit).
  - rewrite InlineFieldFacts.match_literal_none_space
      by (apply InlineFieldFacts.alternative_no_space || done).
    apply IH.
Qed.

Lemma match_token_space alts s p r b :
  match_token alts s = Some (p, r) ->
  match_token alts (s ++ 32%N :: b) = Some (p, r ++ 32%N :: b).
Proof.
  unfold match_token.
  destruct (match_literal _ s) as [r'|] eqn:Hlit; [|done].
  rewrite (InlineFieldFacts.match_literal_app _ _ _ (32%N :: b) Hlit).
  apply match_alternatives_space.
Qed.

(** Text after a space does not change the priority read before it, when
  it holds no priority token itself. *)
Lemma read_before_space x y :
  getPriorityFromTitle y = Standard ->
  getPriorityFromTitle (x ++ 32%N :: y) = getPriorityFromTitle x.
Proof.
  intros Hy. induction x as [|c x IH].
  - cbn [app getPriorityFromTitle].
    change (match_token READ_REGEX (32%N :: y)) with (@None (Priority * list N)).
    change (match_token READ_REGEX []) with (@None (Priority * list N)).
    done.
  - change ((c :: x) ++ 32%N :: y) with (c :: (x ++ 32%N :: y)).
    cbn [getPriorityFromTitle].
    change (c :: x ++ 32%N :: y) with ((c :: x) ++ 32%N :: y).
    destruct (match_token READ_REGEX (c :: x)) as [[q r]|] eqn:Hm.
    + by rewrite (match_token_space _ _ _ _ y Hm).
    + by rewrite InlineFieldFacts.match_token_none_space.
Qed.

Lemma plain_not_open c : plain c -> (canonicalize 91 =? canonicalize c)%N = false.
Proof.
  intros [Hc| ->]; [|done]. unfold canonicalize.
  destruct (N.eqb_spec
              (if (97 <=? 91)%N && (91 <=? 122)%N then (91 - 32)%N else 91%N)
              (if (97 <=? c)%N && (c <=? 122)%N then (c - 32)%N else c))
    as [Heq|]; [|done].
  exfalso. cbn in Heq.
  destruct (N.leb_spec 97 c), (N.leb_spec c 122); cbn in Heq;
    try lia; subst c; by vm_compute in Hc.
Qed.

Lemma read_plain e : Forall plain e -> getPriorityFromTitle (e ++ [93%N]) = Standard.
Proof.
  induction 1 as [|c e Hc He IH]; [done|].
  cbn [app getPriorityFromTitle]. unfold match_token.
  change (code_units "[priority::") with (91%N :: code_units "priority::").
  cbn [match_literal]. by rewrite (plain_not_open c Hc).
Qed.

(** The appended notes field holds no priority token. *)
Lemma read_notes_field e :
  Forall plain e ->
  getPriorityFromTitle (opener ++ e ++ [93%N]) = Standard.
Proof.
  intros He. pose proof (read_plain e He) as Hread.
  assert (Hstep : forall c s,
            (canonicalize 91 =? canonicalize c)%N = false ->
            getPriorityFromTitle (c :: s) = getPriorityFromTitle s).
  { intros c s Hc. cbn [getPriorityFromTitle]. unfold match_token.
    change (code_units "[priority::") with (91%N :: code_units "priority::").
    cbn [match_literal]. by rewrite Hc. }
  change opener with [91; 110; 111; 116; 101; 115; 58; 58]%N.
  cbn [app]. rewrite <- Hread.
  transitivity
    (getPriorityFromTitle (110 :: 111 :: 116 :: 101 :: 115 :: 58 :: 58 :: e ++ [93])%N).
  { cbn [getPriorityFromTitle]. unfold match_token. by cbn. }
  by rewrite !Hstep by done.
Qed.

Lemma trim_priority_token c p :
  trim_start c = c ->
  trim (c ++ priority_token p)
  = match c with
    | [] => token_body p
    | _ :: _ => c ++ priority_token p
    end.
Proof.
  intros Hc. destruct c as [|x c]; [by destruct p|].
  assert (Hx : is_white_space x = false)
    by (by eapply InlineFieldFacts.trim_start_head).
  unfold trim.
  rewrite (InlineFieldFacts.trim_start_fixed ((x :: c) ++ priority_token p)
             x (c ++ priority_token p)) by done.
  rewrite reverse_app.
  assert (Hrev : exists r, reverse (priority_token p) = 93%N :: r)
    by (destruct p; by eexists).
  destruct Hrev as [r Hr]. rewrite Hr. cbn [app].
  rewrite (InlineFieldFacts.trim_start_fixed (93%N :: r ++ reverse (x :: c))
             93%N (r ++ reverse (x :: c))) by done.
  change (93%N :: r ++ reverse (x :: c)) with ((93%N :: r) ++ reverse (x :: c)).
  by rewrite <- Hr, <- reverse_app, reverse_involutive.
Qed.

(** The title after the priority has been put in: it holds no opening of
  a notes field, it is trimmed, and the priority reads back. *)
Lemma priority_then_clean text p :
  has_token text = false -> has_opener text = false ->
  let cleaned := trim (replace_notes (updatePriorityInTitle text p)) in
  has_opener cleaned = false /\ getPriorityFromTitle cleaned = p.
Proof.
  intros Htok Hopen. cbn zeta. unfold updatePriorityInTitle.
  rewrite (InlineFieldFacts.replace_no_token text Htok).
  pose proof (has_opener_trim text Hopen) as Hopen'.
  pose proof (InlineFieldFacts.trim_no_token text Htok) as Htok'.
  assert (Htrimmed : trim (trim text) = trim text).
  { apply InlineFieldFacts.trim_trimmed;
      [apply InlineFieldFacts.trim_front|apply InlineFieldFacts.trim_back]. }
  destruct p.
  - rewrite (replace_notes_none _ Hopen'), Htrimmed. split; [done|].
    by apply InlineFieldFacts.read_no_token.
  - rewrite (replace_notes_none _ (has_opener_priority_token _ High Hopen')).
    rewrite trim_priority_token by apply InlineFieldFacts.trim_front.
    destruct (trim text) as [|x c] eqn:Ht; [done|]. split.
    + by apply has_opener_priority_token.
    + by apply InlineFieldFacts.read_clean_token.
  - rewrite (replace_notes_none _ (has_opener_priority_token _ Low Hopen')).
    rewrite trim_priority_token by apply InlineFieldFacts.trim_front.
    destruct (trim text) as [|x c] eqn:Ht; [done|]. split.
    + by apply has_opener_priority_token.
    + by apply InlineFieldFacts.read_clean_token.
Qed.

End NotesFieldFacts.

(** X24 (percent-encoding round trip).  For a text of code units in which
    every surrogate has its partner, [encodeURIComponent] returns a text of
    unreserved characters and percent signs, and [decodeURIComponent]
    gives the text back from it; for a text with a surrogate that has no
    partner, [encodeURIComponent] raises. *)
Theorem decodeURIComponent_inverts_encodeURIComponent (s : list N) :
  Forall (fun c => (c < 65536)%N) s ->
  if NotesField.well_formed s
  then exists e,
         NotesField.encodeURIComponent s = Some e
         /\ NotesField.decodeURIComponent e = Some s
         /\ Forall (fun c => NotesField.unreserved c = true \/ c = 37%N) e
  else NotesField.encodeURIComponent s = None.
Proof.
  intros Hall. destruct (NotesField.well_formed s) eqn:Hwf.
  - destruct (NotesFieldFacts.round_trip_upto (length s) s)
      as (e & He & Hd & Hp & _); [done|done|].
    by exists e.
  - by apply (NotesFieldFacts.encode_ill_formed (length s)).
Qed.

(** X25 (notes written, then read).  On a title whose cleaned form holds
    no opening of a notes field: blank notes leave the cleaned title, from
    which no notes are read; notes in which every surrogate has its
    partner are read back as they were written, whatever characters they
    hold; notes with a surrogate that has no partner make
    [updateNotesInTitle] raise. *)
Theorem notes_set_then_read (titleRaw notes : list N) :
  Forall (fun c => (c < 65536)%N) notes ->
  NotesField.has_opener
    (InlineField.trim (NotesField.replace_notes titleRaw)) = false ->
  if bool_decide (InlineField.trim notes = [])
  then NotesField.updateNotesInTitle titleRaw notes
       = Some (InlineField.trim (NotesField.replace_notes titleRaw))
       /\ NotesField.getNotesFromTitle
            (InlineField.trim (NotesField.replace_notes titleRaw)) = []
  else if NotesField.well_formed notes
  then exists newTitleRaw,
         NotesField.updateNotesInTitle titleRaw notes = Some newTitleRaw
         /\ NotesField.getNotesFromTitle newTitleRaw = notes
  else NotesField.updateNotesInTitle titleRaw notes = None.
Proof.
  intros Hall Hclean. unfold NotesField.updateNotesInTitle.
  case_bool_decide as Hblank.
  - rewrite orb_true_r. split; [done|].
    unfold NotesField.getNotesFromTitle.
    by rewrite NotesFieldFacts.first_notes_none.
  - rewrite bool_decide_false by (by intros ->). cbn [orb].
    destruct (NotesField.well_formed notes) eqn:Hwf.
    + destruct (NotesFieldFacts.round_trip_upto (length notes) notes)
        as (e & -> & Hdec & Hplain & Hne); [done|done|].
      eexists. split; [done|]. unfold NotesField.getNotesFromTitle.
      rewrite NotesFieldFacts.first_notes_appended by done.
      destruct e as [|c e]; [by destruct Hne; [intros ->|]|].
      by rewrite Hdec.
    + by rewrite (NotesFieldFacts.encode_ill_formed (length notes)).
Qed.

(** X26 (a new title keeps the fields).  When the typed text holds no
    priority token and no opening of a notes field, the title that
    [updateTitle] writes reads back with the priority of the old title,
    and with its notes when they are not blank; blank notes are dropped.
    The notes of the old title are taken to have every surrogate in a
    pair. *)
Theorem updateTitle_keeps_priority_and_notes (titleRaw newTitle : list N) :
  InlineField.has_token newTitle = false ->
  NotesField.has_opener newTitle = false ->
  Forall (fun c => (c < 65536)%N) (NotesField.getNotesFromTitle titleRaw) ->
  NotesField.well_formed (NotesField.getNotesFromTitle titleRaw) = true ->
  exists newTitleRaw,
    NotesField.updateTitle titleRaw newTitle = Some newTitleRaw
    /\ InlineField.getPriorityFromTitle newTitleRaw
       = InlineField.getPriorityFromTitle titleRaw
    /\ NotesField.getNotesFromTitle newTitleRaw
       = if bool_decide
              (InlineField.trim (NotesField.getNotesFromTitle titleRaw) = [])
         then []
         else NotesField.getNotesFromTitle titleRaw.
Proof.
  intros Htok Hopen Hall Hwf. unfold NotesField.updateTitle, NotesField.with_fields.
  generalize dependent (NotesField.getNotesFromTitle titleRaw). intros notes Hall Hwf.
  generalize (InlineField.getPriorityFromTitle titleRaw). intros p.
  destruct (NotesFieldFacts.priority_then_clean newTitle p Htok Hopen)
    as [Hclean Hread].
  unfold NotesField.updateNotesInTitle.
  destruct (decide (InlineField.trim notes = [])) as [Hblank|Hblank].
  - rewrite !(bool_decide_true _ Hblank), orb_true_r.
    eexists. split; [done|]. split; [done|].
    unfold NotesField.getNotesFromTitle.
    by rewrite NotesFieldFacts.first_notes_none.
  - rewrite !(bool_decide_false _ Hblank).
    rewrite bool_decide_false by (by intros ->). cbn [orb].
    destruct (NotesFieldFacts.round_trip_upto (length notes) notes)
      as (e & -> & Hdec & Hplain & Hne); [done|done|].
    eexists. split; [done|]. split.
    + change (InlineField.code_units " [notes::")
        with (32%N :: NotesField.opener).
      change ((32%N :: NotesField.opener) ++ e ++ InlineField.code_units "]")
        with (32%N :: (NotesField.opener ++ e ++ [93%N])).
      rewrite NotesFieldFacts.read_before_space; [done|].
      by apply NotesFieldFacts.read_notes_field.
    + unfold NotesField.getNotesFromTitle.
      rewrite NotesFieldFacts.first_notes_appended by done.
      destruct e as [|c e]; [by destruct Hne; [intros ->|]|].
      by rewrite Hdec.
Qed.

(** ** Adding a row to an invoice *)

Module TabulaFacts.
Import InlineField Tabula.

(** Before the header nothing stops the first loop. *)
Lemma scan_before_header pre rest i :
  Forall (fun l => is_header l = false) pre ->
  scan false i (pre ++ rest) = scan false (length pre + i) rest.
Proof.
  intros H. revert i. induction H as [|l pre Hl Hpre IH]; intros i; [done|].
  cbn [app scan length andb]. rewrite Hl.
  destruct (is_separator false l); rewrite IH; f_equal; lia.
Qed.

Lemma separator_is_row b line :
  is_separator b line = true -> startsWith (code_units "|") line = true.
Proof.
  unfold is_separator.
  change (code_units "|:") with [124; 58]%N.
  change (code_units "| :") with [124; 32; 58]%N.
  change (code_units "|") with [124]%N.
  destruct line as [|c line]; [by destruct b|].
  cbn [startsWith]. destruct (124 =? c)%N; [done|]. by destruct b.
Qed.

Lemma row_not_blank line :
  startsWith (code_units "|") line = true -> trim line <> [].
Proof.
  change (code_units "|") with [124]%N.
  destruct line as [|c line]; [done|]. cbn [startsWith].
  destruct (N.eqb_spec 124 c) as [<-|]; [|done]. intros _ Hnil.
  apply trim_nil in Hnil. done.
Qed.

(** The rows of the table do not stop the first loop. *)
Lemma scan_rows rows rest i :
  Forall (fun l => is_header l = true
                   \/ startsWith (code_units "|") l = true) rows ->
  scan true i (rows ++ rest) = scan true (length rows + i) rest.
Proof.
  intros H. revert i. induction H as [|l rows Hl Hrows IH]; intros i; [done|].
  cbn [app scan length].
  destruct (is_header l) eqn:Hh.
  { rewrite IH. f_equal. lia. }
  destruct Hl as [?|Hrow]; [done|].
  destruct (is_separator true l).
  { rewrite IH. f_equal. lia. }
  rewrite Hrow, bool_decide_false by (by apply row_not_blank). cbn.
  rewrite IH. f_equal. lia.
Qed.

Lemma scan_stop stop post i :
  is_header stop = false -> startsWith (code_units "|") stop = false ->
  scan true i (stop :: post) = Some i.
Proof.
  intros Hh Hrow. cbn [scan]. rewrite Hh.
  destruct (is_separator true stop) eqn:Hsep.
  { apply separator_is_row in Hsep. congruence. }
  by rewrite Hrow.
Qed.

Lemma scan_none b i lines :
  Forall (fun l => is_header l = false) lines -> b = false ->
  scan b i lines = None.
Proof.
  intros H ->. revert i. induction H as [|l lines Hl Hlines IH]; intros i;
    [done|].
  cbn [scan andb]. rewrite Hl. destruct (is_separator false l); apply IH.
Qed.

Lemma find_totals_first pre totals post i :
  Forall (fun l => startsWith (code_units "## Totals") l = false) pre ->
  startsWith (code_units "## Totals") totals = true ->
  find_totals i (pre ++ totals :: post) = Some (length pre + i).
Proof.
  intros H Ht. revert i. induction H as [|l pre Hl Hpre IH]; intros i.
  - cbn [app find_totals length]. by rewrite Ht.
  - cbn [app find_totals length]. rewrite Hl, IH. f_equal. lia.
Qed.

Lemma find_totals_none lines i :
  Forall (fun l => startsWith (code_units "## Totals") l = false) lines ->
  find_totals i lines = None.
Proof.
  intros H. revert i. induction H as [|l lines Hl Hlines IH]; intros i;
    [done|].
  cbn [find_totals]. by rewrite Hl.
Qed.

Lemma splice_in_app {A} (a b : list A) x :
  splice_in (length a) x (a ++ b) = a ++ x :: b.
Proof.
  unfold splice_in. by rewrite take_app_length, drop_app_length.
Qed.

Lemma append_below_table pre header rows stop post newRow :
  Forall (fun l => is_header l = false) pre ->
  is_header header = true ->
  Forall (fun l => is_header l = true
                   \/ startsWith (code_units "|") l = true) rows ->
  is_header stop = false ->
  startsWith (code_units "|") stop = false ->
  appendLineItem (pre ++ header :: rows ++ stop :: post) newRow
  = Some (pre ++ header :: rows ++ newRow :: stop :: post).
Proof.
  intros Hpre Hheader Hrows Hstop Hrow.
  unfold appendLineItem, insertIndex.
  rewrite scan_before_header by done. cbn [scan]. rewrite Hheader.
  rewrite scan_rows by done. rewrite scan_stop by done.
  replace (length rows + S (length pre + 0))
    with (length (pre ++ header :: rows))
    by (rewrite length_app; cbn [length]; lia).
  change (pre ++ header :: rows ++ stop :: post)
    with (pre ++ (header :: rows) ++ stop :: post).
  rewrite (app_assoc pre (header :: rows) (stop :: post)).
  rewrite splice_in_app. by rewrite <- app_assoc.
Qed.

End TabulaFacts.

(** X27 (where the row of a completed task goes).  In an invoice whose
    first header line of the line-item table is followed by lines that
    start with a bar (or are header lines again) and then by a line that
    does not, the new row is put directly below those lines and nothing
    else changes; a second row, added afterwards, comes below the first.
    Without a header line the row goes above the first line that starts
    the totals, and without such a line either nothing is written and the
    function raises. *)
Theorem appendLineItem_adds_below_the_table
    (pre rows post : list (list N)) (header stop row1 row2 : list N) :
  Forall (fun l => Tabula.is_header l = false) pre ->
  Tabula.is_header header = true ->
  Forall (fun l => Tabula.is_header l = true
                   \/ Tabula.startsWith (InlineField.code_units "|") l = true)
    rows ->
  Tabula.is_header stop = false ->
  Tabula.startsWith (InlineField.code_units "|") stop = false ->
  Tabula.startsWith (InlineField.code_units "|") row1 = true ->
  Tabula.appendLineItem (pre ++ header :: rows ++ stop :: post) row1
  = Some (pre ++ header :: rows ++ row1 :: stop :: post)
  /\ Tabula.appendLineItem (pre ++ header :: rows ++ row1 :: stop :: post) row2
     = Some (pre ++ header :: rows ++ row1 :: row2 :: stop :: post)
  /\ (Forall (fun l => Tabula.is_header l = false) post ->
      Tabula.appendLineItem (pre ++ stop :: post) row1
      = match Tabula.find_totals 0 (pre ++ stop :: post) with
        | Some i => Some (splice_in i row1 (pre ++ stop :: post))
        | None => None
        end
      /\ (Forall (fun l => Tabula.startsWith
                             (InlineField.code_units "## Totals") l = false)
            (pre ++ stop :: post) ->
          Tabula.appendLineItem (pre ++ stop :: post) row1 = None)
      /\ (Forall (fun l => Tabula.startsWith
                             (InlineField.code_units "## Totals") l = false)
            pre ->
          Tabula.startsWith (InlineField.code_units "## Totals") stop = true ->
          Tabula.appendLineItem (pre ++ stop :: post) row1
          = Some (pre ++ row1 :: stop :: post))).
Proof.
  intros Hpre Hheader Hrows Hstop Hbar Hrow1.
  split; [by apply TabulaFacts.append_below_table|]. split.
  - pose proof (TabulaFacts.append_below_table pre header (rows ++ [row1])
                  stop post row2) as H.
    rewrite <- !app_assoc in H. cbn [app] in H. apply H; try done.
    apply Forall_app. split; [done|]. apply Forall_cons. split; [by right|].
    constructor.
  - intros Hpost.
    assert (Hnone : Tabula.scan false 0 (pre ++ stop :: post) = None).
    { apply TabulaFacts.scan_none; [|done]. apply Forall_app. split; [done|].
      by apply Forall_cons. }
    unfold Tabula.appendLineItem, Tabula.insertIndex. rewrite Hnone.
    split; [done|]. split.
    + intros Hno. by rewrite TabulaFacts.find_totals_none.
    + intros Hno Htotals.
      rewrite (TabulaFacts.find_totals_first pre stop post 0 Hno Htotals).
      rewrite Nat.add_0_r. by rewrite TabulaFacts.splice_in_app.
Qed.

(** ** The title on a card of a pane *)

Module CardTitleFacts.
Import InlineField NotesField CardTitle.

Lemma remove_all_skip pattern x r :
  remove_all pattern (length x) (x ++ r) = remove_all pattern 0 r.
Proof. induction x as [|c x IH]; [by destruct r|]. done. Qed.

(** Text without the first character of a pattern is left as it is. *)
Lemma remove_all_other pattern (first : N) a b :
  (forall c s, (c =? first)%N = false -> pattern (c :: s) = None) ->
  Forall (fun c => (c =? first)%N = false) a ->
  remove_all pattern 0 (a ++ b) = a ++ remove_all pattern 0 b.
Proof.
  intros Hpat Ha. induction Ha as [|c a Hc Ha IH]; [done|].
  cbn [app remove_all]. by rewrite (Hpat c _ Hc), IH.
Qed.

Lemma remove_all_none pattern (first : N) a :
  (forall c s, (c =? first)%N = false -> pattern (c :: s) = None) ->
  Forall (fun c => (c =? first)%N = false) a ->
  remove_all pattern 0 a = a.
Proof.
  intros Hpat Ha. rewrite <- (app_nil_r a) at 1.
  rewrite (remove_all_other pattern first a [] Hpat Ha). by rewrite app_nil_r.
Qed.

Lemma match_field_first c s : (c =? 91)%N = false -> match_field (c :: s) = None.
Proof. intros H. cbn [match_field]. by rewrite H. Qed.

Lemma match_stamp_first c s : (c =? 64)%N = false -> match_stamp (c :: s) = None.
Proof. intros H. destruct s as [|c2 s]; [done|]. cbn [match_stamp]. by rewrite H. Qed.

Lemma name_run_colon name s :
  forallb name_char name = true ->
  name_run (name ++ 58%N :: s) = (name, 58%N :: s).
Proof.
  induction name as [|c name IH]; [done|]. cbn [forallb app name_run].
  intros [-> Hname]%andb_true_iff. by rewrite (IH Hname).
Qed.

Lemma until_bracket_value v b :
  Forall (fun c => (c =? 93)%N = false) v ->
  until_bracket (v ++ 93%N :: b) = Some (v, b).
Proof.
  induction 1 as [|c v Hc Hv IH]; [done|]. cbn [app until_bracket].
  by rewrite Hc, IH.
Qed.

(** A field is taken out whole. *)
Lemma remove_field c name v b :
  forallb name_char (c :: name) = true ->
  Forall (fun c => (c =? 93)%N = false) v ->
  remove_all match_field 0 (91%N :: (c :: name) ++ 58%N :: 58%N :: v ++ 93%N :: b)
  = remove_all match_field 0 b.
Proof.
  intros Hname Hv. cbn [remove_all]. unfold match_field at 1.
  cbn [N.eqb Pos.eqb]. rewrite (name_run_colon (c :: name) _ Hname).
  cbn [N.eqb Pos.eqb andb]. rewrite (until_bracket_value v b Hv). cbn [fmap option_fmap option_map snd].
  replace (length ((c :: name) ++ 58%N :: 58%N :: v ++ 93%N :: b) - length b)
    with (length ((c :: name) ++ 58%N :: 58%N :: v ++ [93%N])).
  - replace ((c :: name) ++ 58%N :: 58%N :: v ++ 93%N :: b)
      with (((c :: name) ++ 58%N :: 58%N :: v ++ [93%N]) ++ b).
    + apply remove_all_skip.
    + rewrite <- !app_assoc. cbn [app]. by rewrite <- !app_assoc.
  - rewrite !length_app. cbn [length]. rewrite !length_app. cbn [length]. lia.
Qed.

Lemma remove_priority_field p b :
  exists w,
    forallb is_white_space w = true
    /\ remove_all match_field 0 (priority_field p ++ b)
       = w ++ remove_all match_field 0 b.
Proof.
  destruct p; cbn [priority_field].
  - by exists [].
  - exists [32%N]. split; [done|].
    change (priority_token High)
      with (32%N :: 91%N :: code_units "priority" ++ 58%N :: 58%N
                   :: code_units "high" ++ [93%N]).
    cbn [app]. repeat (rewrite <- app_assoc; cbn [app]).
    change (32%N :: ?x) with ([32%N] ++ x).
    rewrite (remove_all_other match_field 91 [32%N] _ match_field_first)
      by (by repeat constructor).
    f_equal.
    change (code_units "priority") with (112%N :: code_units "riority").
    rewrite (remove_field 112 (code_units "riority") (code_units "high") b);
      [done|done|by repeat constructor].
  - exists [32%N]. split; [done|].
    change (priority_token Low)
      with (32%N :: 91%N :: code_units "priority" ++ 58%N :: 58%N
                   :: code_units "low" ++ [93%N]).
    cbn [app]. repeat (rewrite <- app_assoc; cbn [app]).
    change (32%N :: ?x) with ([32%N] ++ x).
    rewrite (remove_all_other match_field 91 [32%N] _ match_field_first)
      by (by repeat constructor).
    f_equal.
    change (code_units "priority") with (112%N :: code_units "riority").
    rewrite (remove_field 112 (code_units "riority") (code_units "low") b);
      [done|done|by repeat constructor].
Qed.

Lemma remove_notes_field e :
  match e with Some encoded => Forall plain encoded | None => True end ->
  exists w,
    forallb is_white_space w = true
    /\ remove_all match_field 0 (notes_field e) = w.
Proof.
  destruct e as [e|]; [|by exists []]. intros He. exists [32%N].
  split; [done|]. cbn [notes_field].
  change (code_units " [notes::" ++ e ++ code_units "]")
    with ([32%N]
          ++ 91%N :: (110%N :: code_units "otes")
                     ++ 58%N :: 58%N :: e ++ 93%N :: []).
  rewrite (remove_all_other match_field 91 [32%N] _ match_field_first)
    by (by repeat constructor).
  rewrite (remove_field 110 (code_units "otes") e []); [done|done|].
  eapply Forall_impl; [exact He|]. intros c Hc.
  by apply NotesFieldFacts.plain_not_bracket.
Qed.

(** Text without an opening bracket holds no field of either kind. *)
Lemma no_bracket_no_field s :
  Forall (fun c => (c =? 91)%N = false) s ->
  has_token s = false /\ has_opener s = false.
Proof.
  induction 1 as [|c s Hc Hs [IH1 IH2]]; [done|].
  assert (Hlit : forall pat, match_literal (91%N :: pat) (c :: s) = None).
  { intros pat. cbn [match_literal].
    destruct (N.eqb_spec (canonicalize 91) (canonicalize c)) as [Heq|]; [|done].
    exfalso. apply N.eqb_neq in Hc. apply Hc. revert Heq. unfold canonicalize.
    cbn. destruct (N.leb_spec 97 c), (N.leb_spec c 122); cbn; lia. }
  split.
  - cbn [has_token]. unfold match_token.
    change (code_units "[priority::") with (91%N :: code_units "priority::").
    by rewrite Hlit.
  - cbn [has_opener].
    change opener with (91%N :: code_units "notes::").
    by rewrite Hlit.
Qed.

Lemma Forall_trim (P : N -> Prop) s : Forall P s -> Forall P (trim s).
Proof.
  destruct (InlineFieldFacts.trim_stretch s) as (a & b & Hs).
  rewrite Hs at 1. intros H. apply Forall_app in H as [_ H].
  by apply Forall_app in H as [H _].
Qed.

End CardTitleFacts.

(** X28 (the fields are not shown on the cards of a pane).  For a text
    that is not blank and holds no opening bracket and no at sign, the
    title that the detail pane writes for the text with a priority and
    notes is shown on the card of a pane as the trimmed text alone. *)
Theorem getDisplayTitle_hides_the_fields (text notes title : list N)
    (priority : InlineField.Priority) :
  Forall (fun c => (c =? 91)%N = false) text ->
  Forall (fun c => (c =? 64)%N = false) text ->
  InlineField.trim text <> [] ->
  Forall (fun c => (c < 65536)%N) notes ->
  NotesField.well_formed notes = true ->
  exists newTitleRaw,
    NotesField.with_fields text priority notes = Some newTitleRaw
    /\ CardTitle.getDisplayTitle newTitleRaw title = InlineField.trim text.
Proof.
  intros Hopen Hat Htext Hall Hwf.
  destruct (CardTitleFacts.no_bracket_no_field text Hopen) as [Htok Hop].
  pose proof (CardTitleFacts.Forall_trim _ text Hopen) as Hopen'.
  pose proof (CardTitleFacts.Forall_trim _ text Hat) as Hat'.
  pose proof (NotesFieldFacts.has_opener_trim text Hop) as Hop'.
  (* the title that is written *)
  assert (Hshape : exists e,
            match e with
            | Some encoded => Forall NotesField.plain encoded
            | None => True
            end
            /\ NotesField.with_fields text priority notes
               = Some (InlineField.trim text
                       ++ CardTitle.priority_field priority
                       ++ CardTitle.notes_field e)).
  { unfold NotesField.with_fields, NotesField.updateNotesInTitle.
    assert (Hcleaned :
              InlineField.trim
                (NotesField.replace_notes
                   (InlineField.updatePriorityInTitle text priority))
              = InlineField.trim text ++ CardTitle.priority_field priority).
    { unfold InlineField.updatePriorityInTitle.
      rewrite (InlineFieldFacts.replace_no_token text Htok).
      destruct priority; cbn [CardTitle.priority_field].
      - rewrite (NotesFieldFacts.replace_notes_none _ Hop'), app_nil_r.
        apply InlineFieldFacts.trim_trimmed;
          [apply InlineFieldFacts.trim_front|apply InlineFieldFacts.trim_back].
      - rewrite (NotesFieldFacts.replace_notes_none _
                   (NotesFieldFacts.has_opener_priority_token _ InlineField.High Hop')).
        rewrite NotesFieldFacts.trim_priority_token
          by apply InlineFieldFacts.trim_front.
        by destruct (InlineField.trim text).
      - rewrite (NotesFieldFacts.replace_notes_none _
                   (NotesFieldFacts.has_opener_priority_token _ InlineField.Low Hop')).
        rewrite NotesFieldFacts.trim_priority_token
          by apply InlineFieldFacts.trim_front.
        by destruct (InlineField.trim text). }
    rewrite Hcleaned.
    destruct (bool_decide (notes = []) || bool_decide (InlineField.trim notes = [])).
    - exists None. split; [done|]. cbn [CardTitle.notes_field].
      by rewrite !app_nil_r.
    - destruct (NotesFieldFacts.round_trip_upto (length notes) notes)
        as (e & -> & _ & Hplain & _); [done|done|].
      exists (Some e). split; [done|]. cbn [CardTitle.notes_field].
      by rewrite <- !app_assoc. }
  destruct Hshape as (e & He & Hrun). eexists. split; [exact Hrun|].
  unfold CardTitle.getDisplayTitle.
  assert (Hne : InlineField.trim text
                ++ CardTitle.priority_field priority
                ++ CardTitle.notes_field e <> [])
    by (intros Hnil; apply app_eq_nil in Hnil as [? _]; done).
  rewrite (bool_decide_false _ Hne).
  rewrite (CardTitleFacts.remove_all_other CardTitle.match_field 91 _ _
             CardTitleFacts.match_field_first Hopen').
  destruct (CardTitleFacts.remove_priority_field priority
              (CardTitle.notes_field e)) as (w1 & Hw1 & ->).
  destruct (CardTitleFacts.remove_notes_field e He) as (w2 & Hw2 & ->).
  assert (Htrim : InlineField.trim (InlineField.trim text ++ w1 ++ w2)
                  = InlineField.trim text).
  { pose proof (trim_white [] (InlineField.trim text) (w1 ++ w2)) as H.
    cbn [app] in H. rewrite H; [|done|by rewrite forallb_app, Hw1, Hw2].
    apply InlineFieldFacts.trim_trimmed;
      [apply InlineFieldFacts.trim_front|apply InlineFieldFacts.trim_back]. }
  rewrite Htrim.
  rewrite (CardTitleFacts.remove_all_none CardTitle.match_stamp 64 _
             CardTitleFacts.match_stamp_first Hat').
  assert (Htwice : InlineField.trim (InlineField.trim text) = InlineField.trim text).
  { apply InlineFieldFacts.trim_trimmed;
      [apply InlineFieldFacts.trim_front|apply InlineFieldFacts.trim_back]. }
  rewrite Htwice. by rewrite (bool_decide_false _ Htext).
Qed.

(** * Further worked instances *)

Lemma transitions_without_save_witness :
  requested_saves
    (log (pane_run [OpenDone; SelectItem (Some "c")] Sample.working))
  = requested_saves (log Sample.working)
  /\ viewSet (pane_run [OpenDone; SelectItem (Some "c")] Sample.working)
     = viewSet Sample.working.
Proof.
  apply (transitions_without_save Sample.env 0 Sample.working).
  do 3 right. exists [OpenDone; SelectItem (Some "c")]. reflexivity.
Defined.






Lemma getParsedBoard_white_space_witness :
  getParsedBoard Sample.env Cases.rejecting "Control/Board.md" 2
    ([32; 10]%N ++ InlineField.code_units "- [ ] x" ++ [9]%N)
  = getParsedBoard Sample.env Cases.rejecting "Control/Board.md" 2
      (InlineField.code_units "- [ ] x")
  /\ getParsedBoard Sample.env Cases.rejecting "Control/Board.md" 2
       ([32; 10]%N ++ [9]%N)
     = (blank_board Sample.env "Control/Board.md" 2, []).
Proof.
  apply (getParsedBoard_ignores_outer_white_space Sample.env Cases.rejecting
           "Control/Board.md" 2 [32; 10]%N (InlineField.code_units "- [ ] x")
           [9]%N);
    vm_compute; reflexivity.
Defined.



Lemma unregisterView_witness :
  snd (unregisterView 1 Sample.working) = true
  /\ viewSet (fst (unregisterView 1 Sample.working)) = []
  /\ snd (unregisterView 2 Sample.working) = false.
Proof.
  destruct (unregisterView_calls_onEmpty_for_the_last_view Sample.working
              (mkView 1 "old text"))
    as (_ & _ & Hempty & _); [apply NoDup_singleton|].
  split; [apply Hempty; reflexivity|]. split; vm_compute; reflexivity.
Defined.

Lemma handleCardClick_witness :
  pane_flag LDone (openDone Sample.working) = true
  /\ overlay_flags (handleCardClick LDone Sample.cardA (openDone Sample.working))
     = [false; false; false; false; false; false]
  /\ selectedItemId
       (handleCardClick LDone Sample.cardA (openDone Sample.working))
     = Some "a"
  /\ previousPaneMode
       (handleCardClick LDone Sample.cardA (openDone Sample.working))
     = Some LDone.
Proof.
  split; [reflexivity|].
  destruct (handleCardClick_opens_the_detail_pane LDone Sample.cardA
              (openDone Sample.working))
    as (Hflags & Hsel & Hprev & _); [reflexivity | vm_compute; lia |].
  split; [exact Hflags|]. split; [exact Hsel | exact Hprev].
Defined.

Lemma clearing_operations_witness :
  pane_exclusion (openDone Sample.working)
  /\ pane_exclusion (pane_step (openDone Sample.working) OpenWaiting).
Proof.
  assert (H : pane_exclusion (openDone Sample.working)).
  { split; [vm_compute; lia|]. intros _. reflexivity. }
  split; [exact H|].
  apply (clearing_operations_keep_exclusion (openDone Sample.working)
           OpenWaiting); [reflexivity | exact H].
Defined.







Lemma encodeURIComponent_witness :
  NotesField.well_formed [104; 233; 32; 55357; 56832]%N = true
  /\ exists e,
       NotesField.encodeURIComponent [104; 233; 32; 55357; 56832]%N = Some e
       /\ NotesField.decodeURIComponent e = Some [104; 233; 32; 55357; 56832]%N.
Proof.
  split; [vm_compute; reflexivity|].
  pose proof (decodeURIComponent_inverts_encodeURIComponent
                [104; 233; 32; 55357; 56832]%N) as H.
  change (NotesField.well_formed [104; 233; 32; 55357; 56832]%N)
    with true in H.
  destruct H as (e & Henc & Hdec & _); [repeat constructor|].
  exists e. split; [exact Henc | exact Hdec].
Defined.

Lemma notes_set_then_read_witness :
  exists newTitleRaw,
    NotesField.updateNotesInTitle
      (InlineField.code_units "Buy milk [notes::old]")
      (InlineField.code_units "2 litres [fresh]") = Some newTitleRaw
    /\ NotesField.getNotesFromTitle newTitleRaw
       = InlineField.code_units "2 litres [fresh]".
Proof.
  pose proof (notes_set_then_read
                (InlineField.code_units "Buy milk [notes::old]")
                (InlineField.code_units "2 litres [fresh]")) as H.
  change (bool_decide
            (InlineField.trim (InlineField.code_units "2 litres [fresh]") = []))
    with false in H.
  change (NotesField.well_formed (InlineField.code_units "2 litres [fresh]"))
    with true in H.
  apply H; [vm_compute; repeat constructor | vm_compute; reflexivity].
Defined.

Lemma updateTitle_witness :
  exists newTitleRaw,
    NotesField.updateTitle
      (InlineField.code_units "Old [priority::high] [notes::a%20b]")
      (InlineField.code_units "New title") = Some newTitleRaw
    /\ InlineField.getPriorityFromTitle newTitleRaw = InlineField.High
    /\ NotesField.getNotesFromTitle newTitleRaw = InlineField.code_units "a b".
Proof.
  destruct (updateTitle_keeps_priority_and_notes
              (InlineField.code_units "Old [priority::high] [notes::a%20b]")
              (InlineField.code_units "New title"))
    as (t & Hrun & Hp & Hn);
    [vm_compute; reflexivity | vm_compute; reflexivity
    | vm_compute; repeat constructor | vm_compute; reflexivity |].
  exists t. split; [exact Hrun|]. split; [exact Hp | exact Hn].
Defined.

Lemma appendLineItem_witness :
  Tabula.appendLineItem
    [InlineField.code_units "## Line Items"; Cases.invoice_header;
     Cases.invoice_separator; []; InlineField.code_units "## Totals"]
    (Cases.invoice_row "01-22" "Pay invoice")
  = Some [InlineField.code_units "## Line Items"; Cases.invoice_header;
          Cases.invoice_separator; Cases.invoice_row "01-22" "Pay invoice";
          []; InlineField.code_units "## Totals"].
Proof.
  destruct (appendLineItem_adds_below_the_table
              [InlineField.code_units "## Line Items"]
              [Cases.invoice_separator]
              [InlineField.code_units "## Totals"]
              Cases.invoice_header []
              (Cases.invoice_row "01-22" "Pay invoice")
              (Cases.invoice_row "01-23" "Call Ada"))
    as (Hfirst & _);
    [repeat constructor | reflexivity | repeat constructor; by right
    | reflexivity | reflexivity | reflexivity |].
  exact Hfirst.
Defined.

Lemma getDisplayTitle_witness :
  exists newTitleRaw,
    NotesField.with_fields (InlineField.code_units " Pay invoice ")
      InlineField.High (InlineField.code_units "net 30") = Some newTitleRaw
    /\ CardTitle.getDisplayTitle newTitleRaw []
       = InlineField.code_units "Pay invoice".
Proof.
  apply (getDisplayTitle_hides_the_fields
           (InlineField.code_units " Pay invoice ")
           (InlineField.code_units "net 30") [] InlineField.High);
    [vm_compute; repeat constructor | vm_compute; repeat constructor
    | vm_compute; discriminate | vm_compute; repeat constructor
    | vm_compute; reflexivity].
Defined.



